(** * ompl::base::ProjectionMatrix and ompl::base::ProjectionEvaluator

    A shallow embedding of [src/ompl/base/src/ProjectionEvaluator.cpp]:
    the random projection-matrix builder ([ComputeRandom]), the matrix
    application ([project]) and the evaluator that turns projected points
    into grid coordinates ([setCellDimensions], [checkCellDimensions],
    [inferCellDimensions], [setup], [computeCoordinates]).

    The C++ code computes with [double].  Every function below is written
    once, over an abstract scalar type, and is run at two instances:
    - [float], Rocq's primitive IEEE 754 binary64 numbers, which is what the
      program computes with (concrete runs are evaluated at this instance);
    - [R], exact real arithmetic, the idealisation in which the algebraic
      statements (orthogonality, unit norm, linearity) are exact.

    A call returns a value, throws one of the three exceptions of the
    file, or has undefined behaviour (an index past the end of a vector, a
    conversion to [int] of a value that no [int] holds); see [Outcome]. *)

From Stdlib Require Import String.
From Stdlib Require Import ZArith List Bool Arith Lia QArith.
From Stdlib Require Import Floats Reals Lra.
Import ListNotations.
Close Scope Q_scope.
#[local] Set Warnings "-inexact-float".

Set Implicit Arguments.

(* ================================================================== *)
(** * Scalars *)
(* ================================================================== *)

(** The operations on [double] that the matrix code uses. *)
Class Scalar (F : Type) : Type := {
  fzero : F;                       (* 0.0 *)
  fone : F;                        (* 1.0 *)
  fadd : F -> F -> F;
  fsub : F -> F -> F;
  fmul : F -> F -> F;
  fdiv : F -> F -> F;
  fsqrt : F -> F;                  (* sqrt *)
  fabs : F -> F;                   (* fabs *)
  fltb : F -> F -> bool;           (* operator<; [a > b] is [fltb b a] *)
  fepsilon : F                     (* std::numeric_limits<double>::epsilon() *)
}.

(** What the evaluator needs besides: infinities and [(int)floor(x)].
    [floor(x)] is exactly representable for every finite [double], so the
    composite [(int)floor(x)] is the integer floor of [x] when that integer
    lies in the range of [int]; the conversion is undefined otherwise
    (NaN, infinities, values out of range), which [None] stands for. *)
Class Double (F : Type) : Type := {
  Double_Scalar :: Scalar F;
  finfinity : F;                   (* std::numeric_limits<double>::infinity() *)
  fopp : F -> F;                   (* unary minus *)
  int_floor : F -> option Z        (* (int)floor(x) *)
}.

(** ** The range of a 32-bit [int] *)

Definition INT_MIN : Z := (- 2 ^ 31)%Z.
Definition INT_MAX : Z := (2 ^ 31 - 1)%Z.

Definition in_int_range (n : Z) : bool :=
  ((INT_MIN <=? n) && (n <=? INT_MAX))%Z.

(** The conversion of an integral value to [int]. *)
Definition int_cast (n : Z) : option Z :=
  if in_int_range n then Some n else None.

(** ** IEEE 754 binary64 *)

(** The mathematical floor of a binary64 number, read off its
    sign/mantissa/exponent decomposition: the value of
    [S754_finite s m e] is [(-1)^s * m * 2^e]. [Z.div] rounds toward
    minus infinity. *)
Definition SFfloor (x : spec_float) : option Z :=
  match x with
  | S754_zero _ => Some 0%Z
  | S754_finite s m e =>
      let n := cond_Zopp s (Z.pos m) in
      Some (if (0 <=? e)%Z then n * 2 ^ e else n / 2 ^ (- e))%Z
  | S754_infinity _ | S754_nan => None
  end.

Definition float_floor (x : float) : option Z := SFfloor (Prim2SF x).

Definition float_int_floor (x : float) : option Z :=
  match float_floor x with
  | Some n => int_cast n
  | None => None
  end.

(** A finite [double]: neither NaN nor an infinity. *)
Definition SFfinite (x : spec_float) : bool :=
  match x with
  | S754_zero _ | S754_finite _ _ _ => true
  | S754_infinity _ | S754_nan => false
  end.

Definition float_finite (x : float) : bool := SFfinite (Prim2SF x).

Definition SFnonzero (x : spec_float) : bool :=
  match x with
  | S754_finite _ _ _ => true
  | _ => false
  end.

(** Finite and different from zero. *)
Definition float_regular (x : float) : bool := SFnonzero (Prim2SF x).

#[export] Instance float_Scalar : Scalar float := {
  fzero := 0%float;
  fone := 1%float;
  fadd := PrimFloat.add;
  fsub := PrimFloat.sub;
  fmul := PrimFloat.mul;
  fdiv := PrimFloat.div;
  fsqrt := PrimFloat.sqrt;
  fabs := PrimFloat.abs;
  fltb := PrimFloat.ltb;
  fepsilon := 0x1p-52%float
}.

#[export] Instance float_Double : Double float := {
  Double_Scalar := float_Scalar;
  finfinity := PrimFloat.infinity;
  fopp := PrimFloat.opp;
  int_floor := float_int_floor
}.

(** ** Exact real arithmetic

    The same code over the reals.  A statement at this instance is about
    the algorithm in exact arithmetic and says so; it is not about what
    the program computes in binary64. *)

Definition Rltb (x y : R) : bool := if Rlt_dec x y then true else false.

#[export] Instance R_Scalar : Scalar R := {
  fzero := 0%R;
  fone := 1%R;
  fadd := Rplus;
  fsub := Rminus;
  fmul := Rmult;
  fdiv := Rdiv;
  fsqrt := sqrt;
  fabs := Rabs;
  fltb := Rltb;
  fepsilon := (/ 2 ^ 52)%R
}.

(* ================================================================== *)
(** * Outcomes *)
(* ================================================================== *)

(** The three [throw Exception(...)] sites of the file. *)
Inductive Exception : Type :=
| DegenerateScale          (* "Scaling factor must be non-zero" *)
| InvalidDimension         (* "Dimension of projection needs to be larger than 0" *)
| CellDimensionMismatch.   (* "Number of dimensions in projection space does
                               not match number of cell dimensions" *)

Definition what (e : Exception) : string :=
  match e with
  | DegenerateScale => "Scaling factor must be non-zero"
  | InvalidDimension => "Dimension of projection needs to be larger than 0"
  | CellDimensionMismatch =>
      "Number of dimensions in projection space does not match number of cell dimensions"
  end.

(** A call returns, throws, or has undefined behaviour (a read or write
    past the end of an array, a float-to-int conversion out of range). *)
Inductive Outcome (A : Type) : Type :=
| Ok (a : A)
| Throw (e : Exception)
| Undefined.

Arguments Ok {A} a.
Arguments Throw {A} e.
Arguments Undefined {A}.

(** A call that ends with a thrown [Exception]. *)
Definition failed {A : Type} (o : Outcome A) : Prop := exists e, o = Throw e.

Definition obind {A B : Type} (o : Outcome A) (k : A -> Outcome B) : Outcome B :=
  match o with
  | Ok a => k a
  | Throw e => Throw e
  | Undefined => Undefined
  end.

Declare Scope outcome_scope.
Delimit Scope outcome_scope with outcome.
Notation "x <- c ;; k" := (obind c (fun x => k))
  (at level 61, c at next level, right associativity) : outcome_scope.

(** [l[i] = x] for an index known to be in range ([l] is returned as it
    is otherwise; every use below is guarded). *)
Fixpoint update {A : Type} (i : nat) (x : A) (l : list A) : list A :=
  match l, i with
  | [], _ => []
  | _ :: t, O => x :: t
  | h :: t, S i' => h :: update i' x t
  end.

(** Elementwise combination of two [std::valarray]s of the same size. *)
Fixpoint map2 {A B C : Type} (f : A -> B -> C) (a : list A) (b : list B) : list C :=
  match a, b with
  | x :: a', y :: b' => f x y :: map2 f a' b'
  | _, _ => []
  end.

(** Runs [f] over a list in order, stopping at the first call that does
    not return. *)
Fixpoint mapM {A B : Type} (f : A -> Outcome B) (l : list A) : Outcome (list B) :=
  match l with
  | [] => Ok []
  | x :: l' =>
      (y <- f x ;; ys <- mapM f l' ;; Ok (y :: ys))%outcome
  end.

(* ================================================================== *)
(** * ProjectionMatrix *)
(* ================================================================== *)

Module ProjectionMatrix.
Section Builder.
Context {F : Type} {SF : Scalar F}.

(** [typedef std::vector< std::valarray<double> > Matrix] *)
Definition Row : Type := list F.
Definition Matrix : Type := list Row.

(** [RNG rng]: the value of the [k]-th call of [rng.gaussian01()]. *)
Definition RNG : Type := nat -> F.

(** [e.sum()] on a [std::valarray] expression such as [row * prevRow],
    as libstdc++ computes it ([_Expr::sum]): [T()] when the expression is
    empty; otherwise the accumulator starts as the last entry, and the
    entries before it are added with [+=] from the last but one down to
    the first (the standard leaves the order open). *)
Definition sum (v : Row) : F :=
  match rev v with
  | [] => fzero
  | last :: earlier => fold_left fadd earlier last
  end.

(** [(a * b).sum()] *)
Definition dot (a b : Row) : F := sum (map2 fmul a b).

(** The first loop: row [i] is filled with draws [i*from .. i*from+from-1]. *)
Definition fill (from to : nat) (rng : RNG) : Matrix :=
  map (fun i => map (fun j => rng (i * from + j)) (seq 0 from)) (seq 0 to).

(** [row -= (row * prevRow).sum() * prevRow] *)
Definition subtract_projection (row prevRow : Row) : Row :=
  let c := dot row prevRow in
  map2 fsub row (map (fmul c) prevRow).

(** The loop over [j < i]; [row] is a reference to [projection[i]], the
    rows [j < i] are read and left as they are. *)
Definition orthogonalize (projection : Matrix) (i : nat) : Row :=
  fold_left (fun row j => subtract_projection row (nth j projection []))
            (seq 0 i) (nth i projection []).

(** [row /= sqrt((row * row).sum())] *)
Definition normalize (row : Row) : Row :=
  let n := fsqrt (dot row row) in
  map (fun x => fdiv x n) row.

(** One iteration of the loop over [i]. *)
Definition orthonormalize_row (projection : Matrix) (i : nat) : Matrix :=
  update i (normalize (orthogonalize projection i)) projection.

(** [for (unsigned int i = 1 ; i < to ; ++i)] *)
Definition orthonormalize (to : nat) (projection : Matrix) : Matrix :=
  fold_left orthonormalize_row (seq 1 (to - 1)) projection.

(** The body of the scaling loops at [(i, j)]: the test of [scale[i]],
    then [projection[i][j] /= scale[i]]. *)
Definition scale_entry (scale : list F) (i : nat) (x : F) : Outcome F :=
  match nth_error scale i with
  | None => Undefined
  | Some s =>
      if fltb (fabs s) fepsilon then Throw DegenerateScale
      else Ok (fdiv x s)
  end.

(** The loop over [j] for row [i]. *)
Definition scale_row (scale : list F) (i : nat) (row : Row) : Outcome Row :=
  mapM (scale_entry scale i) row.

(** The loop over [i], from row index [i]. *)
Fixpoint scale_rows (scale : list F) (i : nat) (rows : Matrix) : Outcome Matrix :=
  match rows with
  | [] => Ok []
  | row :: rest =>
      (row' <- scale_row scale i row ;;
       rest' <- scale_rows scale (S i) rest ;;
       Ok (row' :: rest'))%outcome
  end.

(** [ProjectionMatrix::ComputeRandom(from, to, scale)] *)
Definition ComputeRandom (from to : nat) (scale : list F) (rng : RNG) : Outcome Matrix :=
  let projection := orthonormalize to (fill from to rng) in
  if length scale =? from then scale_rows scale 0 projection
  else Ok projection.

(** The loop over [j] of [project]: [*pos += from[j] * vec[j]]. *)
Fixpoint accumulate (from : list F) (vec : Row) (pos : F) : Outcome F :=
  match vec with
  | [] => Ok pos
  | v :: vec' =>
      match from with
      | [] => Undefined
      | x :: from' => accumulate from' vec' (fadd pos (fmul x v))
      end
  end.

(** The loop over [i] of [project], from row index [i]; [to] is the
    destination array. *)
Fixpoint project_rows (mat : Matrix) (from : list F) (i : nat) (to : list F)
  : Outcome (list F) :=
  match mat with
  | [] => Ok to
  | vec :: rest =>
      if i <? length to then
        (v <- accumulate from vec fzero ;;
         project_rows rest from (S i) (update i v to))%outcome
      else Undefined
  end.

(** [ProjectionMatrix::project(from, to)] *)
Definition project (mat : Matrix) (from to : list F) : Outcome (list F) :=
  project_rows mat from 0 to.

End Builder.

Arguments Row F : clear implicits.
Arguments Matrix F : clear implicits.
Arguments RNG F : clear implicits.

End ProjectionMatrix.

(* ================================================================== *)
(** * ProjectionEvaluator *)
(* ================================================================== *)

Module ProjectionEvaluator.

Section Members.
Context {F : Type}.

(** What the member functions read and change: the member
    [cellDimensions_], the number of states sampled so far, and the
    warnings sent to the console ([msg.warn]), each with the dimension
    and the manifold name it reports. *)
Record World : Type := {
  cellDimensions_ : list F;
  sampled : nat;
  console : list (nat * string)
}.

(** A member function: it runs in a world and leaves a world, also when
    it throws (nothing is rolled back). *)
Definition M (A : Type) : Type := World -> Outcome A * World.

Definition ret {A : Type} (a : A) : M A := fun w => (Ok a, w).

Definition bind {A B : Type} (c : M A) (k : A -> M B) : M B :=
  fun w =>
    match c w with
    | (Ok a, w') => k a w'
    | (Throw e, w') => (Throw e, w')
    | (Undefined, w') => (Undefined, w')
    end.

Definition throw {A : Type} (e : Exception) : M A := fun w => (Throw e, w).

Definition lift {A : Type} (o : Outcome A) : M A := fun w => (o, w).

Definition when (b : bool) (c : M unit) : M unit := if b then c else ret tt.

End Members.

Arguments World F : clear implicits.
Arguments M F A : clear implicits.

Declare Scope member_scope.
Delimit Scope member_scope with member.
Notation "x <- c ;; k" := (bind c (fun x => k))
  (at level 61, c at next level, right associativity) : member_scope.
Notation "c ;; k" := (bind c (fun _ => k))
  (at level 61, right associativity) : member_scope.

Section Evaluator.
Context {F : Type} {DF : Double F}.

(** [ompl::base::State], the elements of the manifold. *)
Variable State : Type.

(** The two constants of [ompl/util/MagicConstants.h] that
    [inferCellDimensions] reads; the header is taken as a parameter. *)
Record Magic : Type := {
  PROJECTION_EXTENTS_SAMPLES : nat;
  PROJECTION_DIMENSION_SPLITS : F
}.

(** The manifold the evaluator refers to ([manifold_]): its name, and the
    state that the [k]-th call of [sampleUniform] produces. *)
Record Manifold : Type := {
  getName : string;
  sampleUniform : nat -> State
}.

(** A projection: the pure virtual members [getDimension()] and
    [project(state, projection)] of the class, and its manifold.
    [project s] is the content of [projection.values] after the call. *)
Record Projection : Type := {
  getDimension : nat;
  project : State -> list F;
  manifold_ : Manifold
}.

Local Open Scope member_scope.

(** [v[j]] on a local vector. *)
Definition read (v : list F) (j : nat) : M F F :=
  lift (match nth_error v j with Some x => Ok x | None => Undefined end).

Definition size : M F nat := fun w => (Ok (length (cellDimensions_ w)), w).

(** [cellDimensions_ = v] *)
Definition assign (v : list F) : M F unit :=
  fun w => (Ok tt, {| cellDimensions_ := v; sampled := sampled w; console := console w |}).

(** [std::vector::resize]: the first [n] elements, then zeros. *)
Definition resized (n : nat) (v : list F) : list F :=
  firstn n v ++ repeat fzero (n - length v).

(** [cellDimensions_.resize(n)] *)
Definition resize (n : nat) : M F unit :=
  fun w => assign (resized n (cellDimensions_ w)) w.

(** [cellDimensions_[j]] *)
Definition load (j : nat) : M F F := fun w => read (cellDimensions_ w) j w.

(** [cellDimensions_[j] = x] *)
Definition store (j : nat) (x : F) : M F unit :=
  fun w =>
    if j <? length (cellDimensions_ w)
    then assign (update j x (cellDimensions_ w)) w
    else (Undefined, w).

Variable magic : Magic.
Variable P : Projection.

(** [sampler->sampleUniform(s)] *)
Definition sample : M F State :=
  fun w => (Ok (sampleUniform (manifold_ P) (sampled w)),
            {| cellDimensions_ := cellDimensions_ w;
               sampled := S (sampled w);
               console := console w |}).

(** [msg.warn("Inferred cell size for dimension %u of a projection for
    manifold %s is 0. Setting arbitrary value of 1 instead.", j, name)] *)
Definition warn (j : nat) : M F unit :=
  fun w => (Ok tt,
            {| cellDimensions_ := cellDimensions_ w;
               sampled := sampled w;
               console := console w ++ [(j, getName (manifold_ P))] |}).

(** [ProjectionEvaluator::checkCellDimensions()] *)
Definition checkCellDimensions : M F unit :=
  when (getDimension P <=? 0) (throw InvalidDimension) ;;
  n <- size ;;
  when (negb (n =? getDimension P)) (throw CellDimensionMismatch).

(** [ProjectionEvaluator::setCellDimensions(cellDimensions)] *)
Definition setCellDimensions (cellDimensions : list F) : M F unit :=
  assign cellDimensions ;;
  checkCellDimensions.

(** [for (j = first ; j < first + count ; ++j) body(j)] over local
    variables [a]. *)
Fixpoint for_ {A : Type} (first count : nat) (body : nat -> A -> M F A) (a : A) : M F A :=
  match count with
  | O => ret a
  | S count' => a' <- body first a ;; for_ (S first) count' body a'
  end.

(** The body of the loop over [j] that follows the extents:
    [if (low[j] > proj.values[j]) low[j] = proj.values[j];
     if (high[j] < proj.values[j]) high[j] = proj.values[j];] *)
Definition extend (proj : list F) (j : nat) (lh : list F * list F)
  : M F (list F * list F) :=
  let (low, high) := lh in
  lo <- read low j ;;
  p <- read proj j ;;
  let low' := if fltb p lo then update j p low else low in
  hi <- read high j ;;
  let high' := if fltb hi p then update j p high else high in
  ret (low', high').

(** The body of the loop over the samples. *)
Definition sample_extent (dim : nat) (_ : nat) (lh : list F * list F)
  : M F (list F * list F) :=
  s <- sample ;;
  for_ 0 dim (extend (project P s)) lh.

(** The body of the last loop of [inferCellDimensions]. *)
Definition infer_axis (low high : list F) (j : nat) (_ : unit) : M F unit :=
  hi <- read high j ;;
  lo <- read low j ;;
  store j (fdiv (fsub hi lo) (PROJECTION_DIMENSION_SPLITS magic)) ;;
  c <- load j ;;
  when (fltb c fepsilon) (store j fone ;; warn j).

(** [ProjectionEvaluator::inferCellDimensions()] *)
Definition inferCellDimensions : M F unit :=
  let dim := getDimension P in
  when (0 <? dim)
    (let low := repeat finfinity dim in
     let high := repeat (fopp finfinity) dim in
     lh <- for_ 0 (PROJECTION_EXTENTS_SAMPLES magic) (sample_extent dim) (low, high) ;;
     resize dim ;;
     for_ 0 dim (infer_axis (fst lh) (snd lh)) tt).

(** [ProjectionEvaluator::setup()] *)
Definition setup : M F unit :=
  n <- size ;;
  when ((n =? 0) && (0 <? getDimension P)) inferCellDimensions ;;
  checkCellDimensions.

(** The body of the loop of [computeCoordinates]:
    [coord[i] = (int)floor(projection.values[i]/cellDimensions_[i])] *)
Definition coordinate (projection cells : list F) (i : nat) : Outcome Z :=
  match nth_error projection i, nth_error cells i with
  | Some p, Some c =>
      match int_floor (fdiv p c) with
      | Some n => Ok n
      | None => Undefined
      end
  | _, _ => Undefined
  end.

(** [ProjectionEvaluator::computeCoordinates(projection, coord)]: a
    [const] member; the result is [coord], which has [getDimension()]
    elements, all of them assigned. *)
Definition computeCoordinates (projection : list F) (w : World F) : Outcome (list Z) :=
  mapM (coordinate projection (cellDimensions_ w)) (seq 0 (getDimension P)).

End Evaluator.
End ProjectionEvaluator.

Arguments ProjectionEvaluator.Magic F : clear implicits.
Arguments ProjectionEvaluator.Projection F State : clear implicits.

(* ================================================================== *)
(** * The statements' vocabulary *)
(* ================================================================== *)

Module Extent.
Import ProjectionEvaluator.
Section Extent.
Context {F : Type} {DF : Double F}.
Variable State : Type.
Variable magic : Magic F.
Variable P : Projection F State.

(** One step of a running minimum, as [inferCellDimensions] compares:
    the new value replaces the old one when it is below it. *)
Definition lower (lo p : F) : F := if fltb p lo then p else lo.

(** One step of a running maximum. *)
Definition higher (hi p : F) : F := if fltb hi p then p else hi.

Definition running_min (values : list F) : F := fold_left lower values finfinity.

Definition running_max (values : list F) : F :=
  fold_left higher values (fopp finfinity).

(** The projections of the [count] states sampled from number [first] on. *)
Definition projections (first count : nat) : list (list F) :=
  map (fun k => project P (sampleUniform (manifold_ P) k)) (seq first count).

(** Their values on axis [j]. *)
Definition axis (j first count : nat) : list F :=
  map (fun proj => nth j proj fzero) (projections first count).

(** [(max - min) / splitFactor] on axis [j]. *)
Definition extent_width (j first : nat) : F :=
  let values := axis j first (PROJECTION_EXTENTS_SAMPLES magic) in
  fdiv (fsub (running_max values) (running_min values))
       (PROJECTION_DIMENSION_SPLITS magic).

(** Below machine epsilon. *)
Definition degenerate (c : F) : bool := fltb c fepsilon.

(** The width that is stored: [1.0] on a degenerate axis. *)
Definition cell_width (c : F) : F := if degenerate c then fone else c.

(** The projection writes [getDimension()] values for every state the
    sampler produces. *)
Definition conforming : Prop :=
  forall k, length (project P (sampleUniform (manifold_ P) k)) = getDimension P.

(** How many warnings in a console are about dimension [j]. *)
Definition warnings_for (j : nat) (c : list (nat * string)) : nat :=
  length (filter (fun m => fst m =? j) c).

(** The world after [n] more states have been sampled. *)
Definition sampling (n : nat) (w : World F) : World F :=
  {| cellDimensions_ := cellDimensions_ w;
     sampled := n + sampled w;
     console := console w |}.

(** [(high[j] - low[j]) / magic::PROJECTION_DIMENSION_SPLITS] *)
Definition width_at (low high : list F) (j : nat) : F :=
  fdiv (fsub (nth j high fzero) (nth j low fzero)) (PROJECTION_DIMENSION_SPLITS magic).

(** The warning about dimension [j]. *)
Definition warning (j : nat) : nat * string := (j, getName (manifold_ P)).

(** The world after the axes [first .. first + count - 1] have got their
    widths. *)
Definition inferring (width : nat -> F) (first count : nat) (w : World F) : World F :=
  {| cellDimensions_ :=
       firstn first (cellDimensions_ w)
       ++ map (fun j => cell_width (width j)) (seq first count)
       ++ skipn (first + count) (cellDimensions_ w);
     sampled := sampled w;
     console :=
       console w ++ map warning (filter (fun j => degenerate (width j)) (seq first count)) |}.

(** The world that [inferCellDimensions] leaves, axis by axis. *)
Definition inferred (w : World F) : World F :=
  let width := fun j => extent_width j (sampled w) in
  {| cellDimensions_ := map (fun j => cell_width (width j)) (seq 0 (getDimension P));
     sampled := PROJECTION_EXTENTS_SAMPLES magic + sampled w;
     console :=
       console w
       ++ map warning (filter (fun j => degenerate (width j)) (seq 0 (getDimension P))) |}.

End Extent.
End Extent.

Unset Implicit Arguments.

(* ================================================================== *)
(** * The statements' vocabulary: the matrix *)
(* ================================================================== *)

Section MatrixVocabulary.
Import ProjectionMatrix.
Context {F : Type} {SF : Scalar F}.

(** [to] rows of [from] entries. *)
Definition shaped (from to : nat) (m : Matrix F) : Prop :=
  length m = to /\ Forall (fun row : Row F => length row = from) m.

(** The test of the scaling loops. *)
Definition negligible (s : F) : bool := fltb (fabs s) fepsilon.

(** The dot product as the loop of [project] accumulates it: the
    products [from[j] * vec[j]] added to [0.0] in index order. *)
Definition dot_product (from : list F) (vec : Row F) : F :=
  fold_left fadd (map2 fmul from vec) fzero.

(** The draws that fill row [i]. *)
Definition drawn (from : nat) (rng : RNG F) (i : nat) : Row F :=
  map (fun j => rng (i * from + j)) (seq 0 from).

(** Row [i] of the result in terms of its draws and of the rows before
    it in the result: from the drawn row, [(row * prevRow).sum() * prevRow]
    is subtracted for every row before it, row 0 first, and what is left
    is divided by the square root of [(row * row).sum()]. *)
Definition orthonormalized_against (before : Matrix F) (row : Row F) : Row F :=
  normalize (fold_left subtract_projection before row).


End MatrixVocabulary.

Section ExactVocabulary.
Import ProjectionMatrix.

(** Rows [1 .. i - 1] of [m] have unit norm and are orthogonal to
    one another. *)
Definition orthonormal_below (m : Matrix R) (i : nat) : Prop :=
  (forall k, 1 <= k < i -> dot (nth k m []) (nth k m []) = 1%R)
  /\ (forall j k, 1 <= j < k -> k < i -> dot (nth k m []) (nth j m []) = 0%R).

(** The vector that is normalised into row [i]. *)
Definition residual (from to : nat) (rng : RNG R) (i : nat) : Row R :=
  orthogonalize (orthonormalize i (fill from to rng)) i.

(** No row vanishes before it is normalised. *)
Definition nondegenerate (from to : nat) (rng : RNG R) : Prop :=
  forall i, 1 <= i < to -> dot (residual from to rng i) (residual from to rng i) <> 0%R.

(** [a * x + b * y], entry by entry. *)
Definition combine (a : R) (x : list R) (b : R) (y : list R) : list R :=
  map2 Rplus (map (Rmult a) x) (map (Rmult b) y).


End ExactVocabulary.

Section FloorVocabulary.
Local Open Scope float_scope.

(** The rational value of a finite binary64 number. *)
Definition SF2Q (x : spec_float) : Q :=
  match x with
  | S754_finite s m e =>
      let n := cond_Zopp s (Z.pos m) in
      if (0 <=? e)%Z then inject_Z (n * 2 ^ e)
      else Qmake n (Z.to_pos (2 ^ (- e)))
  | _ => 0%Q
  end.

(** The coordinate on axis [i]: the floor of the quotient, when it is an
    integer in the range of [int]. *)
Definition floor_quotient (projection cells : list float) (i : nat) : Z :=
  match float_floor (nth i projection 0 / nth i cells 0) with
  | Some n => n
  | None => 0%Z
  end.


End FloorVocabulary.

(* ================================================================== *)
(** * Concrete inputs *)
(* ================================================================== *)

Module Examples.
Import ProjectionMatrix ProjectionEvaluator Extent.
Local Open Scope float_scope.

(** A manifold whose [k]-th sampled state is the number [k]. *)
Definition line : Manifold nat :=
  {| getName := "line"%string; sampleUniform := fun k => k |}.

Definition float_of_nat (k : nat) : float := of_uint63 (Uint63.of_Z (Z.of_nat k)).

(** A projection to the plane: the state itself on axis 0, the constant
    3.5 on axis 1. *)
Definition plane : Projection float nat :=
  {| getDimension := 2;
     project := fun k => [float_of_nat k; 3.5];
     manifold_ := line |}.

(** A projection of dimension [dim] (all coordinates equal to the state). *)
Definition diagonal (dim : nat) : Projection float nat :=
  {| getDimension := dim;
     project := fun k => repeat (float_of_nat k) dim;
     manifold_ := line |}.

Definition magic4 : Magic float :=
  {| PROJECTION_EXTENTS_SAMPLES := 4; PROJECTION_DIMENSION_SPLITS := 20 |}.

(** An evaluator that stores [cells], before any sampling or warning. *)
Definition fresh (cells : list float) : World float :=
  {| cellDimensions_ := cells; sampled := 0; console := [] |}.

(** The draws of a generator that returns the entries of [draws] in turn. *)
Definition drawing {F : Type} (zero : F) (draws : list F) : RNG F :=
  fun k => nth k draws zero.

(** [|x - y| < tol] *)
Definition within (tol x y : float) : bool := abs (x - y) <? tol.

(** The rows (2,0,0), (1,4,0), (0,25,20), in exact arithmetic and in
    binary64. *)
Definition draws9 : list R := [2; 0; 0; 1; 4; 0; 0; 25; 20]%R.
Definition draws9_double : list float := [2; 0; 0; 1; 4; 0; 0; 25; 20].

(** The rows (2,0,0), (0,3,4), (0,3,4 + 2^-50): the last two are nearly
    parallel.  Every entry is a binary64 number. *)
Definition near_parallel : list R := [2; 0; 0; 0; 3; 4; 0; 3; 4 + / 2 ^ 50]%R.
Definition near_parallel_double : list float := [2; 0; 0; 0; 3; 4; 0; 3; 4 + 0x1p-50].

(** A projection to the line that sends every state to [+infinity]. *)
Definition skyward : Projection float nat :=
  {| getDimension := 1;
     project := fun _ => [infinity];
     manifold_ := line |}.

End Examples.

(* ================================================================== *)
(** * The other members *)
(* ================================================================== *)

From Stdlib Require Import DecimalString.

(** The members of [ProjectionMatrix] besides [project]: the overloads
    of [ComputeRandom] and [computeRandom], which work on the member
    [mat]. *)
Module ProjectionMatrixMembers.
Import ProjectionMatrix.
Section Members.
Context {F : Type} {SF : Scalar F}.

(** [ProjectionMatrix::ComputeRandom(from, to)]:
    [return ComputeRandom(from, to, std::vector<double>())] *)
Definition ComputeRandom_unscaled (from to : nat) (rng : RNG F) : Outcome (Matrix F) :=
  ComputeRandom from to [] rng.

(** [ProjectionMatrix::computeRandom(from, to, scale)]:
    [mat = ComputeRandom(from, to, scale)]; the assignment is not reached
    when the call does not return. *)
Definition computeRandom (from to : nat) (scale : list F) (rng : RNG F)
           (mat : Matrix F) : Outcome unit * Matrix F :=
  match ComputeRandom from to scale rng with
  | Ok m => (Ok tt, m)
  | Throw e => (Throw e, mat)
  | Undefined => (Undefined, mat)
  end.

(** [ProjectionMatrix::computeRandom(from, to)]:
    [mat = ComputeRandom(from, to)] *)
Definition computeRandom_unscaled (from to : nat) (rng : RNG F)
           (mat : Matrix F) : Outcome unit * Matrix F :=
  match ComputeRandom_unscaled from to rng with
  | Ok m => (Ok tt, m)
  | Throw e => (Throw e, mat)
  | Undefined => (Undefined, mat)
  end.

End Members.
End ProjectionMatrixMembers.

(** The members that write text to a [std::ostream].  The stream is the
    text written to it so far; [show] is [operator<<] on [double] (its
    format depends on the flags of the stream, and is a parameter). *)
Module Printing.
Import ProjectionMatrix ProjectionEvaluator.
Local Open Scope string_scope.

(** [std::endl] *)
Definition endl : string := String (Ascii.ascii_of_nat 10) EmptyString.

(** [operator<<] on [unsigned int]: the decimal digits. *)
Definition show_unsigned (n : nat) : string :=
  NilEmpty.string_of_uint (Nat.to_uint n).

Section Printing.
Context {F : Type} {SF : Scalar F}.
Variable State : Type.
Variable show : F -> string.

(** The loop over [j] of [ProjectionMatrix::print]:
    [out << vec[j] << " "] *)
Definition print_row (vec : Row F) (out : string) : string :=
  fold_left (fun out j => out ++ show (nth j vec fzero) ++ " ")
            (seq 0 (length vec)) out.

(** [ProjectionMatrix::print(out)] *)
Definition print (mat : Matrix F) (out : string) : string :=
  fold_left (fun out i => print_row (nth i mat []) out ++ endl)
            (seq 0 (length mat)) out.

(** The text of a row: every entry followed by a space, then the end of
    the line. *)
Definition row_text (vec : Row F) : string :=
  String.concat "" (map (fun x => show x ++ " ") vec) ++ endl.

(** The loop of [printSettings]:
    [out << cellDimensions_[i]; if (i + 1 < cellDimensions_.size()) out << ' ';] *)
Definition print_cells (cells : list F) (out : string) : string :=
  fold_left (fun out i =>
               let out := out ++ show (nth i cells fzero) in
               if (i + 1 <? length cells)%nat then out ++ " " else out)
            (seq 0 (length cells)) out.

(** [ProjectionEvaluator::printSettings(out)] *)
Definition printSettings (P : Projection F State) (w : World F) (out : string) : string :=
  let out := out ++ "Projection of dimension " ++ show_unsigned (getDimension P) ++ endl in
  let out := out ++ "Cell dimensions: [" in
  let out := print_cells (cellDimensions_ w) out in
  out ++ "]" ++ endl.

(** [projection.values[i]] *)
Definition value (projection : list F) (i : nat) : Outcome F :=
  match nth_error projection i with
  | Some x => Ok x
  | None => Undefined
  end.

(** The loop of [printProjection]: [out << projection.values[i] << ' '] *)
Fixpoint print_values (projection : list F) (i count : nat) (out : string)
  : Outcome string :=
  match count with
  | O => Ok out
  | S count' =>
      (x <- value projection i ;;
       print_values projection (S i) count' (out ++ show x ++ " "))%outcome
  end.

(** [ProjectionEvaluator::printProjection(projection, out)] *)
Definition printProjection (P : Projection F State) (projection : list F) (out : string)
  : Outcome string :=
  if (0 <? getDimension P)%nat then
    let d := getDimension P - 1 in
    (out <- print_values projection 0 d out ;;
     x <- value projection d ;;
     Ok (out ++ show x ++ endl))%outcome
  else Ok (out ++ "NULL" ++ endl).

End Printing.
End Printing.

(* ================================================================== *)
(** * More vocabulary *)
(* ================================================================== *)

Section ScalingVocabulary.
Import ProjectionMatrix.
Context {F : Type} {SF : Scalar F}.

(** The rows [rows], of which the first one has the index [i], each
    divided by the entry of [scale] at its index. *)
Fixpoint rows_divided (scale : list F) (i : nat) (rows : Matrix F) : Matrix F :=
  match rows with
  | [] => []
  | row :: rest =>
      map (fun x => fdiv x (nth i scale fzero)) row :: rows_divided scale (S i) rest
  end.

(** None of the first [n] entries of [scale] is negligible. *)
Definition all_significant (scale : list F) (n : nat) : Prop :=
  forall i, i < n -> i < length scale -> negligible (nth i scale fzero) = false.

(** The rows fit the source and the destination. *)
Definition fitting (mat : Matrix F) (from to : list F) : Prop :=
  length mat <= length to /\ Forall (fun vec : Row F => length vec <= length from) mat.

End ScalingVocabulary.

Section DivisorVocabulary.

(** A [double] that is [+0.0] or [-0.0]. *)
Definition float_zero (x : float) : bool :=
  match Prim2SF x with
  | S754_zero _ => true
  | _ => false
  end.

(** A [double] that is neither zero nor NaN. *)
Definition float_divisor (x : float) : bool :=
  match Prim2SF x with
  | S754_finite _ _ _ | S754_infinity _ => true
  | S754_zero _ | S754_nan => false
  end.

End DivisorVocabulary.

Module MoreExamples.
Import ProjectionMatrix ProjectionEvaluator Examples.
Local Open Scope float_scope.

(** A format for [double] that tells the sign only. *)
Definition show_sign (x : float) : string :=
  if x <? 0 then "-"%string else "+"%string.

End MoreExamples.

(* ================================================================== *)
(** * Lists *)
(* ================================================================== *)

Section ListFacts.
Context {A : Type}.

Lemma update_length (i : nat) (x : A) (l : list A) :
  length (update i x l) = length l.
Proof.
  revert i; induction l as [|h t IH]; intros [|i]; simpl; auto.
Qed.

Lemma nth_error_app_middle (l1 l2 : list A) (x : A) :
  nth_error (l1 ++ x :: l2) (length l1) = Some x.
Proof.
  induction l1; simpl; auto.
Qed.

Lemma update_app_middle (l1 l2 : list A) (x y : A) :
  update (length l1) y (l1 ++ x :: l2) = l1 ++ y :: l2.
Proof.
  induction l1; simpl; congruence.
Qed.

Lemma nth_error_update_same (i : nat) (x : A) (l : list A) :
  i < length l -> nth_error (update i x l) i = Some x.
Proof.
  revert i; induction l as [|h t IH]; intros [|i] Hi; simpl in *; try lia; auto.
  apply IH; lia.
Qed.

Lemma nth_error_update_other (i k : nat) (x : A) (l : list A) :
  i <> k -> nth_error (update i x l) k = nth_error l k.
Proof.
  revert i k; induction l as [|h t IH]; intros [|i] [|k] Hik; simpl; auto;
    try contradiction.
Qed.

Lemma app_snoc (l1 l2 : list A) (x : A) : l1 ++ x :: l2 = (l1 ++ [x]) ++ l2.
Proof. now rewrite <- app_assoc. Qed.

Lemma length_snoc (l : list A) (x : A) : length (l ++ [x]) = S (length l).
Proof. rewrite length_app; simpl; lia. Qed.

End ListFacts.

Lemma map2_length {A B C : Type} (f : A -> B -> C) (a : list A) (b : list B) :
  length a = length b -> length (map2 f a b) = length a.
Proof.
  revert b; induction a as [|x a IH]; intros [|y b] H; simpl in *; try lia.
  now rewrite IH by lia.
Qed.

Lemma nth_map2 {A B C : Type} (f : A -> B -> C) (a : list A) (b : list B)
      (j : nat) (da : A) (db : B) (dc : C) :
  length a = length b -> j < length a ->
  nth j (map2 f a b) dc = f (nth j a da) (nth j b db).
Proof.
  revert b j; induction a as [|x a IH]; intros [|y b] [|j] H Hj; simpl in *; try lia; auto.
  apply IH; lia.
Qed.

Lemma nth_map_seq {A : Type} (f : nat -> A) (d : A) (first count i : nat) :
  i < count -> nth i (map f (seq first count)) d = f (first + i).
Proof.
  intros Hi. rewrite nth_indep with (d' := f 0) by now rewrite length_map, length_seq.
  now rewrite map_nth, seq_nth.
Qed.

Lemma nth_map_in {A B : Type} (f : A -> B) (l : list A) (i : nat) (d : A) (d' : B) :
  i < length l -> nth i (map f l) d' = f (nth i l d).
Proof.
  intros Hi. rewrite nth_indep with (d' := f d) by now rewrite length_map.
  apply map_nth.
Qed.

(* ================================================================== *)
(** * The loops of inferCellDimensions *)
(* ================================================================== *)

Section InferFacts.
Import ProjectionEvaluator Extent.
Context {F : Type} {DF : Double F}.
Variable State : Type.
Variable magic : Magic F.
Variable P : Projection F State.

Local Open Scope member_scope.

Ltac run := unfold bind, ret, lift, when, throw, read, load, store, size, resize,
              assign, warn, sample in *; simpl in *.

(** The loop over the axes for one sample, from axis [length p1] on. *)
Lemma for_extend (p2 : list F) :
  forall (p1 l1 l2 h1 h2 : list F) (w : World F),
    length l1 = length p1 -> length h1 = length p1 ->
    length l2 = length p2 -> length h2 = length p2 ->
    for_ (length p1) (length p2) (extend (p1 ++ p2)) (l1 ++ l2, h1 ++ h2) w
    = (Ok (l1 ++ map2 lower l2 p2, h1 ++ map2 higher h2 p2), w).
Proof.
  induction p2 as [|p p2 IH]; intros p1 l1 l2 h1 h2 w Hl1 Hh1 Hl2 Hh2.
  - destruct l2, h2; simpl in *; try discriminate. reflexivity.
  - destruct l2 as [|lo l2]; [discriminate|].
    destruct h2 as [|hi h2]; [discriminate|].
    simpl in Hl2, Hh2.
    cbn [length for_]. unfold bind at 1. unfold extend.
    run.
    rewrite <- Hl1 at 1. rewrite nth_error_app_middle.
    rewrite nth_error_app_middle.
    replace (nth_error (h1 ++ hi :: h2) (length p1)) with (Some hi)
      by (rewrite <- Hh1; now rewrite nth_error_app_middle).
    replace (if fltb p lo then update (length p1) p (l1 ++ lo :: l2) else l1 ++ lo :: l2)
      with ((l1 ++ [lower lo p]) ++ l2).
    2:{ unfold lower. rewrite <- app_snoc. destruct (fltb p lo); auto.
        rewrite <- Hl1. now rewrite update_app_middle. }
    replace (if fltb hi p then update (length p1) p (h1 ++ hi :: h2) else h1 ++ hi :: h2)
      with ((h1 ++ [higher hi p]) ++ h2).
    2:{ unfold higher. rewrite <- app_snoc. destruct (fltb hi p); auto.
        rewrite <- Hh1. now rewrite update_app_middle. }
    rewrite (app_snoc p1 p2 p).
    replace (S (length p1)) with (length (p1 ++ [p])) by apply length_snoc.
    rewrite IH; rewrite ?length_snoc; try lia.
    now rewrite <- !app_snoc.
Qed.

Lemma for_extend_all (proj low high : list F) (w : World F) :
  length low = length proj -> length high = length proj ->
  for_ 0 (length proj) (extend proj) (low, high) w
  = (Ok (map2 lower low proj, map2 higher high proj), w).
Proof.
  intros Hl Hh.
  exact (for_extend proj [] [] low [] high w eq_refl eq_refl Hl Hh).
Qed.

Lemma sampling_0 (w : World F) : sampling 0 w = w.
Proof. now destruct w. Qed.

(** The loop over the samples. *)
Lemma for_sample_extent (n : nat) :
  forall (i : nat) (low high : list F) (w : World F),
    conforming P ->
    length low = getDimension P -> length high = getDimension P ->
    for_ i n (sample_extent P (getDimension P)) (low, high) w
    = (Ok (fold_left (map2 lower) (projections P (sampled w) n) low,
           fold_left (map2 higher) (projections P (sampled w) n) high),
       sampling n w).
Proof.
  induction n as [|n IH]; intros i low high w HP Hl Hh.
  - simpl. now rewrite sampling_0.
  - cbn [for_]. unfold bind at 1. unfold sample_extent at 1.
    unfold bind at 1. unfold sample at 1.
    set (proj := project P (sampleUniform (manifold_ P) (sampled w))).
    assert (Hp : length proj = getDimension P) by apply HP.
    rewrite <- Hp at 1. rewrite for_extend_all by congruence.
    rewrite IH; auto.
    2,3: rewrite map2_length; congruence.
    unfold sampling; simpl. f_equal. f_equal. f_equal. lia.
Qed.


Lemma inferring_0 (width : nat -> F) (j : nat) (w : World F) :
  inferring P width j 0 w = w.
Proof.
  destruct w as [c s o]; unfold inferring; simpl.
  rewrite Nat.add_0_r, firstn_skipn, app_nil_r. reflexivity.
Qed.

Lemma firstn_update_succ (j : nat) (x : F) (l : list F) :
  j < length l -> firstn (S j) (update j x l) = firstn j l ++ [x].
Proof.
  revert j; induction l as [|h t IH]; intros [|j] Hj; simpl in *; try lia; auto.
  f_equal. apply IH. lia.
Qed.

Lemma skipn_update_succ (j k : nat) (x : F) (l : list F) :
  j < k -> skipn k (update j x l) = skipn k l.
Proof.
  revert j k; induction l as [|h t IH]; intros [|j] [|k] Hj; simpl in *; try lia; auto.
  apply IH. lia.
Qed.

Lemma update_update (j : nat) (x y : F) (l : list F) :
  update j y (update j x l) = update j y l.
Proof.
  revert j; induction l as [|h t IH]; intros [|j]; simpl; auto.
  now rewrite IH.
Qed.

Lemma nth_error_nth_in (l : list F) (j : nat) (d : F) :
  j < length l -> nth_error l j = Some (nth j l d).
Proof. intros H. now apply nth_error_nth'. Qed.

(** One iteration of the last loop. *)
Lemma infer_axis_step (low high : list F) (j : nat) (w : World F) :
  j < length low -> j < length high -> j < length (cellDimensions_ w) ->
  infer_axis magic P low high j tt w = (Ok tt, inferring P (width_at magic low high) j 1 w).
Proof.
  intros Hl Hh Hc. unfold infer_axis.
  run.
  rewrite (nth_error_nth_in high j fzero Hh), (nth_error_nth_in low j fzero Hl).
  fold (width_at magic low high j).
  apply Nat.ltb_lt in Hc. rewrite Hc. simpl.
  apply Nat.ltb_lt in Hc.
  rewrite nth_error_update_same by assumption.
  unfold inferring, cell_width, degenerate; simpl.
  destruct (fltb (width_at magic low high j) fepsilon) eqn:E; simpl.
  - rewrite update_length. apply Nat.ltb_lt in Hc. rewrite Hc. simpl.
    rewrite update_update. f_equal. f_equal.
    apply Nat.ltb_lt in Hc.
    rewrite <- (firstn_skipn (S j) (update j fone (cellDimensions_ w))).
    rewrite firstn_update_succ by assumption.
    rewrite skipn_update_succ by lia.
    rewrite <- app_assoc. simpl. now rewrite Nat.add_1_r.
  - rewrite app_nil_r. f_equal. destruct w as [c s o]; simpl in *. f_equal.
    rewrite <- (firstn_skipn (S j) (update j (width_at magic low high j) c)).
    rewrite firstn_update_succ by assumption.
    rewrite skipn_update_succ by lia.
    rewrite <- app_assoc. simpl. now rewrite Nat.add_1_r.
Qed.

Lemma inferring_succ (width : nat -> F) (j n : nat) (w : World F) :
  j < length (cellDimensions_ w) ->
  inferring P width (S j) n (inferring P width j 1 w) = inferring P width j (S n) w.
Proof.
  intros Hj. destruct w as [c s o]; unfold inferring.
  cbn [cellDimensions_ sampled console] in *.
  f_equal.
  - assert (Hf : length (firstn j c) = j) by (rewrite length_firstn; lia).
    cbn [seq map app].
    rewrite (app_snoc (firstn j c)).
    rewrite firstn_app, length_snoc, Hf.
    replace (S j - S j) with 0 by lia. rewrite firstn_O, app_nil_r.
    rewrite firstn_all2 by (rewrite length_snoc; lia).
    rewrite skipn_app, length_snoc, Hf.
    rewrite (@skipn_all2 _ (S j + n) (firstn j c ++ _)) by (rewrite length_snoc; lia).
    replace (S j + n - S j) with n by lia.
    rewrite skipn_skipn. rewrite <- app_assoc.
    cbn [app]. now replace (n + (j + 1)) with (j + S n) by lia.
  - rewrite <- app_assoc. f_equal. rewrite <- map_app. f_equal.
    cbn [seq filter]. now destruct (degenerate (width j)).
Qed.

Lemma inferring_length (width : nat -> F) (j n : nat) (w : World F) :
  j + n <= length (cellDimensions_ w) ->
  length (cellDimensions_ (inferring P width j n w)) = length (cellDimensions_ w).
Proof.
  intros H. unfold inferring; simpl.
  rewrite !length_app, length_map, length_seq, length_firstn, length_skipn. lia.
Qed.

(** The last loop, from axis [j] on. *)
Lemma for_infer_axis (low high : list F) (n : nat) :
  forall (j : nat) (w : World F),
    j + n <= length low -> j + n <= length high ->
    j + n <= length (cellDimensions_ w) ->
    for_ j n (infer_axis magic P low high) tt w
    = (Ok tt, inferring P (width_at magic low high) j n w).
Proof.
  induction n as [|n IH]; intros j w Hl Hh Hc.
  - simpl. unfold ret. now rewrite inferring_0.
  - cbn [for_]. unfold bind at 1.
    rewrite infer_axis_step by lia.
    rewrite IH; try lia.
    + now rewrite inferring_succ by lia.
    + rewrite inferring_length; lia.
Qed.


Lemma resized_length (n : nat) (v : list F) : length (resized n v) = n.
Proof.
  unfold resized. rewrite length_app, length_firstn, repeat_length. lia.
Qed.

Lemma nth_fold_map2 (f : F -> F -> F) (j dim : nat) (projs : list (list F)) :
  forall (v : list F),
    Forall (fun proj => length proj = dim) projs ->
    length v = dim -> j < dim ->
    nth j (fold_left (map2 f) projs v) fzero
    = fold_left f (map (fun proj => nth j proj fzero) projs) (nth j v fzero).
Proof.
  induction projs as [|proj projs IH]; intros v Hall Hv Hj; simpl; auto.
  inversion Hall as [|? ? Hp Hps]; subst.
  rewrite IH; auto.
  - f_equal. apply nth_map2; lia.
  - rewrite map2_length; lia.
Qed.

Lemma fold_map2_length (f : F -> F -> F) (dim : nat) (projs : list (list F)) :
  forall (v : list F),
    Forall (fun proj => length proj = dim) projs ->
    length v = dim ->
    length (fold_left (map2 f) projs v) = dim.
Proof.
  induction projs as [|proj projs IH]; intros v Hall Hv; simpl; auto.
  inversion Hall as [|? ? Hp Hps]; subst.
  apply IH; auto. rewrite map2_length; lia.
Qed.

Lemma projections_conform (first count : nat) :
  conforming P ->
  Forall (fun proj => length proj = getDimension P) (projections P first count).
Proof.
  intros HP. unfold projections. apply Forall_map, Forall_forall.
  intros k _. apply HP.
Qed.

Lemma filter_ext_seq (f g : nat -> bool) (first count : nat) :
  (forall j, first <= j < first + count -> f j = g j) ->
  filter f (seq first count) = filter g (seq first count).
Proof.
  intros H. apply filter_ext_in. intros j Hj. apply in_seq in Hj. now apply H.
Qed.

Lemma inferCellDimensions_run (w : World F) :
  conforming P -> 0 < getDimension P ->
  inferCellDimensions magic P w = (Ok tt, inferred magic P w).
Proof.
  intros HP Hdim. unfold inferCellDimensions.
  apply Nat.ltb_lt in Hdim. rewrite Hdim. apply Nat.ltb_lt in Hdim.
  unfold when. unfold bind at 1.
  rewrite for_sample_extent by (auto; apply repeat_length).
  cbn [fst snd].
  set (N := PROJECTION_EXTENTS_SAMPLES magic).
  set (projs := projections P (sampled w) N).
  set (low := fold_left (map2 lower) projs _).
  set (high := fold_left (map2 higher) projs _).
  assert (Hprojs : Forall (fun proj => length proj = getDimension P) projs)
    by now apply projections_conform.
  assert (Hlow : length low = getDimension P)
    by (apply fold_map2_length; auto; apply repeat_length).
  assert (Hhigh : length high = getDimension P)
    by (apply fold_map2_length; auto; apply repeat_length).
  unfold bind, resize, assign.
  rewrite for_infer_axis;
    cbn [cellDimensions_ sampling]; rewrite ?resized_length; try lia.
  f_equal. unfold inferring, inferred.
  cbn [cellDimensions_ sampled console sampling firstn app].
  assert (Hwidth : forall j, 0 <= j < 0 + getDimension P ->
                             width_at magic low high j = extent_width magic P j (sampled w)).
  { intros j Hj. unfold width_at, extent_width, running_max, running_min, axis.
    fold N. fold projs. unfold low, high.
    rewrite !(nth_fold_map2 _ j (getDimension P)) by (auto; try apply repeat_length; lia).
    rewrite !nth_repeat_lt by lia. reflexivity. }
  f_equal.
  - rewrite skipn_all2 by (rewrite resized_length; lia).
    rewrite app_nil_r. apply map_ext_in. intros j Hj. apply in_seq in Hj.
    now rewrite Hwidth.
  - f_equal. f_equal. apply filter_ext_seq. intros j Hj. now rewrite Hwidth.
Qed.

Lemma inferCellDimensions_zero (w : World F) :
  getDimension P = 0 -> inferCellDimensions magic P w = (Ok tt, w).
Proof.
  intros H. unfold inferCellDimensions. now rewrite H.
Qed.

End InferFacts.

Section EvaluatorTheorems.
Import ProjectionEvaluator Extent.
Context {F : Type} {DF : Double F}.
Variable State : Type.
Variable magic : Magic F.
Variable P : Projection F State.

Lemma checkCellDimensions_run (w : World F) :
  checkCellDimensions P w =
  (if getDimension P =? 0 then Throw InvalidDimension
   else if length (cellDimensions_ w) =? getDimension P then Ok tt
        else Throw CellDimensionMismatch, w).
Proof.
  unfold checkCellDimensions, bind, when, throw, ret, size.
  destruct (getDimension P) as [|d]; simpl; auto.
  destruct (length (cellDimensions_ w) =? S d); reflexivity.
Qed.

Lemma setCellDimensions_run (v : list F) (w : World F) :
  setCellDimensions P v w =
  checkCellDimensions P
    {| cellDimensions_ := v; sampled := sampled w; console := console w |}.
Proof. reflexivity. Qed.

Lemma setup_run (w : World F) :
  conforming P ->
  setup magic P w =
  checkCellDimensions P
    (if (length (cellDimensions_ w) =? 0) && (0 <? getDimension P)
     then inferred magic P w else w).
Proof.
  intros HP. unfold setup, bind at 1 2, size.
  destruct ((length (cellDimensions_ w) =? 0) && (0 <? getDimension P)) eqn:E;
    simpl; auto.
  apply andb_true_iff in E as [_ E]. apply Nat.ltb_lt in E.
  now rewrite inferCellDimensions_run.
Qed.

Lemma checkCellDimensions_ok (w w' : World F) :
  checkCellDimensions P w = (Ok tt, w') ->
  w' = w /\ 0 < getDimension P /\ length (cellDimensions_ w) = getDimension P.
Proof.
  rewrite checkCellDimensions_run. intros H.
  destruct (getDimension P =? 0) eqn:E0; [inversion H|].
  destruct (length (cellDimensions_ w) =? getDimension P) eqn:E1; inversion H; subst.
  apply Nat.eqb_neq in E0. apply Nat.eqb_eq in E1. repeat split; auto; lia.
Qed.

Lemma setup_configured (w : World F) :
  0 < getDimension P -> length (cellDimensions_ w) = getDimension P ->
  setup magic P w = (Ok tt, w).
Proof.
  intros Hd Hl. unfold setup, bind at 1 2, size.
  replace (length (cellDimensions_ w) =? 0) with false
    by (symmetry; apply Nat.eqb_neq; lia).
  simpl. rewrite checkCellDimensions_run.
  replace (getDimension P =? 0) with false by (symmetry; apply Nat.eqb_neq; lia).
  now rewrite Hl, Nat.eqb_refl.
Qed.


Lemma inferred_cell (w : World F) (j : nat) :
  j < getDimension P ->
  nth_error (cellDimensions_ (inferred magic P w)) j
  = Some (cell_width (extent_width magic P j (sampled w))).
Proof.
  intros Hj. unfold inferred; cbn [cellDimensions_].
  rewrite nth_error_map, nth_error_nth' with (d := 0) by (rewrite length_seq; lia).
  now rewrite seq_nth by lia.
Qed.

Lemma inferred_length (w : World F) :
  length (cellDimensions_ (inferred magic P w)) = getDimension P.
Proof.
  unfold inferred; cbn [cellDimensions_]. now rewrite length_map, length_seq.
Qed.

(** C5. When the dimension is positive, [inferCellDimensions] draws
    exactly [PROJECTION_EXTENTS_SAMPLES] states, and stores on every axis
    [j] the width [(max - min) / PROJECTION_DIMENSION_SPLITS], where [max]
    and [min] are the running maximum and minimum of the values that the
    projections of these states have on axis [j] (a width below epsilon
    being then replaced by 1, see [cell_width]); when the dimension is
    zero it leaves everything as it is. *)
Theorem inferCellDimensions_extents (w : World F) :
  conforming P ->
  (0 < getDimension P ->
   exists w',
     inferCellDimensions magic P w = (Ok tt, w')
     /\ sampled w' = PROJECTION_EXTENTS_SAMPLES magic + sampled w
     /\ length (cellDimensions_ w') = getDimension P
     /\ forall j, j < getDimension P ->
          nth_error (cellDimensions_ w') j
          = Some (cell_width (extent_width magic P j (sampled w))))
  /\ (getDimension P = 0 -> inferCellDimensions magic P w = (Ok tt, w)).
Proof.
  intros HP. split.
  - intros Hd. exists (inferred magic P w). split; [|split; [|split]].
    + now apply inferCellDimensions_run.
    + reflexivity.
    + apply inferred_length.
    + intros j Hj. now apply inferred_cell.
  - apply inferCellDimensions_zero.
Qed.

(** C7. [setup] infers the cell dimensions exactly when none are stored
    and the dimension is positive, and then validates.  On an evaluator
    that stores none, with a positive dimension, it returns: it has sampled
    [PROJECTION_EXTENTS_SAMPLES] states and leaves one cell dimension per
    axis, the inferred width.  On every other evaluator it samples nothing
    and changes nothing, and returns or throws as [checkCellDimensions]
    does.  Once [setup] or [setCellDimensions] has returned, a further
    [setup] returns too, samples nothing, warns about nothing and leaves
    the stored vector as it is; so does a [setup] after any
    [setCellDimensions] with a vector that is not empty, whether that call
    returned or threw. *)
Theorem setup_idempotent (w : World F) :
  conforming P ->
  setup magic P w
  = checkCellDimensions P
      (if (length (cellDimensions_ w) =? 0) && (0 <? getDimension P)
       then snd (inferCellDimensions magic P w) else w)
  /\ (cellDimensions_ w = [] -> 0 < getDimension P ->
      exists w',
        setup magic P w = (Ok tt, w')
        /\ sampled w' = PROJECTION_EXTENTS_SAMPLES magic + sampled w
        /\ length (cellDimensions_ w') = getDimension P
        /\ forall j, j < getDimension P ->
             nth_error (cellDimensions_ w') j
             = Some (cell_width (extent_width magic P j (sampled w))))
  /\ (cellDimensions_ w <> [] \/ getDimension P = 0 ->
      setup magic P w = checkCellDimensions P w
      /\ snd (setup magic P w) = w)
  /\ (forall w', setup magic P w = (Ok tt, w') -> setup magic P w' = (Ok tt, w'))
  /\ (forall v w', setCellDimensions P v w = (Ok tt, w') ->
                  setup magic P w' = (Ok tt, w'))
  /\ (forall v, v <> [] ->
                snd (setup magic P (snd (setCellDimensions P v w)))
                = snd (setCellDimensions P v w)).
Proof.
  intros HP. split; [|split; [|split; [|split; [|split]]]].
  - rewrite setup_run by assumption.
    destruct ((length (cellDimensions_ w) =? 0) && (0 <? getDimension P)) eqn:E; auto.
    apply andb_true_iff in E as [_ E]. apply Nat.ltb_lt in E.
    now rewrite inferCellDimensions_run.
  - intros Hw Hd. exists (inferred magic P w).
    rewrite setup_run, Hw by assumption. cbn [length Nat.eqb andb].
    replace (0 <? getDimension P) with true by (symmetry; now apply Nat.ltb_lt).
    rewrite checkCellDimensions_run, inferred_length, Nat.eqb_refl.
    replace (getDimension P =? 0) with false by (symmetry; apply Nat.eqb_neq; lia).
    split; [reflexivity|]. split; [reflexivity|]. split; [reflexivity|].
    intros j Hj. now apply inferred_cell.
  - intros Hw. rewrite setup_run by assumption.
    replace ((length (cellDimensions_ w) =? 0) && (0 <? getDimension P)) with false.
    + split; [reflexivity|]. now rewrite checkCellDimensions_run.
    + symmetry. apply andb_false_iff. destruct Hw as [Hw|Hw].
      * left. apply Nat.eqb_neq. destruct (cellDimensions_ w); [contradiction|discriminate].
      * right. apply Nat.ltb_ge. lia.
  - intros w' H. rewrite setup_run in H by assumption.
    apply checkCellDimensions_ok in H as (-> & Hd & Hl).
    now apply setup_configured.
  - intros v w' H. rewrite setCellDimensions_run in H.
    apply checkCellDimensions_ok in H as (-> & Hd & Hl).
    now apply setup_configured.
  - intros v Hv. rewrite setCellDimensions_run, checkCellDimensions_run. cbn [snd].
    rewrite setup_run by assumption. cbn [cellDimensions_].
    destruct v as [|x v]; [contradiction|]. cbn [length Nat.eqb andb].
    now rewrite checkCellDimensions_run.
Qed.

Lemma failed_Throw {A : Type} (e : Exception) : failed (@Throw A e).
Proof. now exists e. Qed.

Lemma not_failed_Ok {A : Type} (a : A) : ~ failed (Ok a).
Proof. intros [e H]; discriminate. Qed.

Lemma checkCellDimensions_failed (w : World F) :
  failed (fst (checkCellDimensions P w))
  <-> getDimension P = 0 \/ length (cellDimensions_ w) <> getDimension P.
Proof.
  rewrite checkCellDimensions_run; cbn [fst].
  destruct (getDimension P =? 0) eqn:E0.
  - apply Nat.eqb_eq in E0. split; auto using failed_Throw.
  - apply Nat.eqb_neq in E0.
    destruct (length (cellDimensions_ w) =? getDimension P) eqn:E1.
    + apply Nat.eqb_eq in E1. split.
      * intros H. now apply not_failed_Ok in H.
      * intros [H|H]; contradiction.
    + apply Nat.eqb_neq in E1. split; auto using failed_Throw.
Qed.

(** C8. [checkCellDimensions] throws exactly when the dimension is zero
    (InvalidDimension) or the stored vector has another length than the
    dimension (CellDimensionMismatch), and so do [setCellDimensions], for
    the vector it is given, and [setup], for the vector it leaves (which
    is the vector it finds unless that one is empty); in particular
    [setCellDimensions] with a vector of another length than the dimension
    always throws. *)
Theorem checkCellDimensions_throws (w : World F) (v : list F) :
  conforming P ->
  (fst (checkCellDimensions P w) = Throw InvalidDimension <-> getDimension P = 0)
  /\ (fst (checkCellDimensions P w) = Throw CellDimensionMismatch
      <-> getDimension P <> 0 /\ length (cellDimensions_ w) <> getDimension P)
  /\ (failed (fst (checkCellDimensions P w))
      <-> getDimension P = 0 \/ length (cellDimensions_ w) <> getDimension P)
  /\ (failed (fst (setCellDimensions P v w))
      <-> getDimension P = 0 \/ length v <> getDimension P)
  /\ (failed (fst (setup magic P w))
      <-> getDimension P = 0
         \/ length (cellDimensions_ (snd (setup magic P w))) <> getDimension P)
  /\ (failed (fst (setup magic P w))
      <-> getDimension P = 0
         \/ (length (cellDimensions_ w) <> 0
             /\ length (cellDimensions_ w) <> getDimension P))
  /\ (length v <> getDimension P -> failed (fst (setCellDimensions P v w))).
Proof.
  intros HP.
  assert (Hset : failed (fst (setCellDimensions P v w))
                 <-> getDimension P = 0 \/ length v <> getDimension P).
  { rewrite setCellDimensions_run.
    exact (checkCellDimensions_failed
             {| cellDimensions_ := v; sampled := sampled w; console := console w |}). }
  split; [|split; [|split; [|split; [|split; [|split]]]]].
  - rewrite checkCellDimensions_run; cbn [fst].
    destruct (getDimension P =? 0) eqn:E0.
    + apply Nat.eqb_eq in E0. tauto.
    + apply Nat.eqb_neq in E0.
      destruct (length (cellDimensions_ w) =? getDimension P);
        split; intros H; (discriminate || contradiction).
  - rewrite checkCellDimensions_run; cbn [fst].
    destruct (getDimension P =? 0) eqn:E0.
    + apply Nat.eqb_eq in E0. split; [discriminate | tauto].
    + apply Nat.eqb_neq in E0.
      destruct (length (cellDimensions_ w) =? getDimension P) eqn:E1.
      * apply Nat.eqb_eq in E1. split; [discriminate | tauto].
      * apply Nat.eqb_neq in E1. tauto.
  - apply checkCellDimensions_failed.
  - exact Hset.
  - rewrite setup_run by assumption.
    match goal with |- context [checkCellDimensions P ?x] => set (w1 := x) end.
    rewrite (checkCellDimensions_run w1) at 2; cbn [snd].
    apply checkCellDimensions_failed.
  - rewrite setup_run by assumption.
    destruct ((length (cellDimensions_ w) =? 0) && (0 <? getDimension P)) eqn:E.
    + apply andb_true_iff in E as [E0 Ed].
      apply Nat.eqb_eq in E0. apply Nat.ltb_lt in Ed.
      rewrite checkCellDimensions_failed, inferred_length. lia.
    + rewrite checkCellDimensions_failed.
      apply andb_false_iff in E as [E|E];
        [apply Nat.eqb_neq in E | apply Nat.ltb_ge in E]; lia.
  - intros H. apply Hset. now right.
Qed.

(** C10. [setCellDimensions] stores the vector before it validates: the
    stored vector is the supplied one whatever the outcome, also when the
    call throws because the dimension is zero or the length differs. *)
Theorem setCellDimensions_stores_first (v : list F) (w : World F) :
  cellDimensions_ (snd (setCellDimensions P v w)) = v
  /\ (getDimension P = 0 \/ length v <> getDimension P ->
      failed (fst (setCellDimensions P v w))
      /\ cellDimensions_ (snd (setCellDimensions P v w)) = v).
Proof.
  assert (H : cellDimensions_ (snd (setCellDimensions P v w)) = v)
    by (rewrite setCellDimensions_run, checkCellDimensions_run; reflexivity).
  split; auto. intros Hbad. split; auto.
  rewrite setCellDimensions_run. now apply checkCellDimensions_failed.
Qed.

End EvaluatorTheorems.

(* ================================================================== *)
(** * binary64 facts *)
(* ================================================================== *)

Section FloatFacts.
Local Open Scope float_scope.

Lemma Prim2SF_infinity : Prim2SF infinity = S754_infinity false.
Proof. reflexivity. Qed.

Lemma Prim2SF_neg_infinity : Prim2SF (- infinity) = S754_infinity true.
Proof. reflexivity. Qed.

Lemma Prim2SF_epsilon : Prim2SF 0x1p-52 = S754_finite false 4503599627370496 (-104).
Proof. reflexivity. Qed.

Lemma float_below_infinity (v : float) :
  float_finite v = true -> (v <? infinity) = true.
Proof.
  unfold float_finite. intros H.
  rewrite ltb_spec, Prim2SF_infinity.
  destruct (Prim2SF v); try discriminate H; reflexivity.
Qed.

Lemma float_above_neg_infinity (v : float) :
  float_finite v = true -> (- infinity <? v) = true.
Proof.
  unfold float_finite. intros H.
  rewrite ltb_spec, Prim2SF_neg_infinity.
  destruct (Prim2SF v); try discriminate H; reflexivity.
Qed.

Lemma float_sub_diag (v : float) :
  float_finite v = true -> Prim2SF (v - v) = S754_zero false.
Proof.
  unfold float_finite. intros H. rewrite sub_spec.
  destruct (Prim2SF v) as [[|]| | |s m e]; try discriminate H; try reflexivity.
  unfold SF64sub, SFsub. rewrite Z.sub_diag. reflexivity.
Qed.

Lemma float_zero_div (z d : float) (s : bool) :
  Prim2SF z = S754_zero s -> float_regular d = true ->
  exists s', Prim2SF (z / d) = S754_zero s'.
Proof.
  unfold float_regular. intros Hz Hd. rewrite div_spec, Hz.
  destruct (Prim2SF d) as [| | |sd m e]; try discriminate Hd.
  now exists (xorb s sd).
Qed.

Lemma float_zero_below_epsilon (z : float) (s : bool) :
  Prim2SF z = S754_zero s -> (z <? 0x1p-52) = true.
Proof.
  intros Hz. rewrite ltb_spec, Hz, Prim2SF_epsilon. reflexivity.
Qed.

(** The width inferred on an axis where the minimum and the maximum are
    the same finite value is below epsilon. *)
Lemma float_flat_degenerate (v splits : float) :
  float_finite v = true -> float_regular splits = true ->
  Extent.degenerate ((v - v) / splits) = true.
Proof.
  intros Hv Hs. unfold Extent.degenerate. simpl.
  destruct (float_zero_div (v - v) splits false (float_sub_diag v Hv) Hs) as [s' Hz].
  now apply (float_zero_below_epsilon _ s').
Qed.

End FloatFacts.

Section Warnings.
Import ProjectionEvaluator Extent.
Context {F : Type} {DF : Double F}.
Variable State : Type.
Variable magic : Magic F.
Variable P : Projection F State.

Lemma warnings_for_app (j : nat) (c1 c2 : list (nat * string)) :
  warnings_for j (c1 ++ c2) = warnings_for j c1 + warnings_for j c2.
Proof.
  unfold warnings_for. now rewrite filter_app, length_app.
Qed.

Lemma warnings_for_seq (g : nat -> bool) (j count : nat) :
  forall first,
    warnings_for j (map (warning P) (filter g (seq first count)))
    = if (first <=? j) && (j <? first + count) && g j then 1 else 0.
Proof.
  induction count as [|count IH]; intros first.
  - simpl. destruct (first <=? j) eqn:E1, (j <? first + 0) eqn:E2; auto.
    apply Nat.leb_le in E1. apply Nat.ltb_lt in E2. lia.
  - cbn [seq filter].
    assert (Hrest : warnings_for j (map (warning P) (filter g (seq (S first) count)))
                    = if (S first <=? j) && (j <? first + S count) && g j then 1 else 0).
    { rewrite IH. now replace (S first + count) with (first + S count) by lia. }
    destruct (Nat.eq_dec first j) as [->|Hne].
    + replace (S j <=? j) with false in Hrest by (symmetry; apply Nat.leb_gt; lia).
      rewrite Nat.leb_refl.
      replace (j <? j + S count) with true by (symmetry; apply Nat.ltb_lt; lia).
      cbn [andb] in *.
      destruct (g j); auto.
      cbn [map]. unfold warnings_for in *. cbn [filter warning fst].
      rewrite Nat.eqb_refl. cbn [length]. now rewrite Hrest.
    + assert (Hle : (first <=? j) = (S first <=? j)).
      { destruct (first <=? j) eqn:E1, (S first <=? j) eqn:E2; auto.
        - apply Nat.leb_le in E1. apply Nat.leb_gt in E2. lia.
        - apply Nat.leb_gt in E1. apply Nat.leb_le in E2. lia. }
      rewrite Hle, <- Hrest.
      destruct (g first); auto.
      cbn [map]. unfold warnings_for. cbn [filter warning fst].
      now replace (first =? j) with false by (symmetry; apply Nat.eqb_neq; lia).
Qed.

Lemma inferred_warnings (w : World F) (j : nat) :
  j < getDimension P ->
  warnings_for j (console (inferred magic P w))
  = warnings_for j (console w)
    + (if degenerate (extent_width magic P j (sampled w)) then 1 else 0).
Proof.
  intros Hj. unfold inferred; cbn [console].
  rewrite warnings_for_app, warnings_for_seq.
  replace (j <? 0 + getDimension P) with true by (symmetry; apply Nat.ltb_lt; lia).
  reflexivity.
Qed.

Lemma lower_idem (x v : F) : lower (lower x v) v = lower x v.
Proof.
  unfold lower. destruct (fltb v x) eqn:E; auto.
  - now destruct (fltb v v).
  - now rewrite E.
Qed.

Lemma higher_idem (x v : F) : higher (higher x v) v = higher x v.
Proof.
  unfold higher. destruct (fltb x v) eqn:E; auto.
  - now destruct (fltb v v).
  - now rewrite E.
Qed.

Lemma fold_flat (f : F -> F -> F) (v : F) (values : list F) :
  (forall x, f (f x v) v = f x v) ->
  Forall (eq v) values -> values <> [] ->
  forall x, fold_left f values x = f x v.
Proof.
  intros Hf Hall. induction Hall as [|u values <- Hall IH]; intros Hne x.
  - contradiction.
  - simpl. destruct values as [|u' values']; auto.
    rewrite IH by discriminate. apply Hf.
Qed.

(** On an axis where every sampled state projects to [v], the running
    minimum and maximum are one comparison away from [v]. *)
Lemma flat_axis (j first count : nat) (v : F) :
  0 < count ->
  (forall k, first <= k < first + count ->
             nth_error (project P (sampleUniform (manifold_ P) k)) j = Some v) ->
  running_min (axis P j first count) = lower finfinity v
  /\ running_max (axis P j first count) = higher (fopp finfinity) v.
Proof.
  intros Hc Hv.
  assert (Hall : Forall (eq v) (axis P j first count)).
  { unfold axis, projections. rewrite map_map. apply Forall_map, Forall_forall.
    intros k Hk. apply in_seq in Hk. symmetry. apply nth_error_nth. now apply Hv. }
  assert (Hne : axis P j first count <> []).
  { unfold axis, projections. destruct count; [lia|]. discriminate. }
  unfold running_min, running_max. split; apply fold_flat; auto.
  - intros x. apply lower_idem.
  - intros x. apply higher_idem.
Qed.

End Warnings.

Section DegenerateAxes.
Import ProjectionEvaluator Extent.
Local Open Scope float_scope.
Variable State : Type.
Variable magic : Magic float.
Variable P : Projection float State.

(** C6. [inferCellDimensions] does not fail, and on every axis [j]: when
    the width [(max - min) / PROJECTION_DIMENSION_SPLITS] is below epsilon
    the stored width is exactly 1.0 and exactly one more warning is about
    [j]; otherwise the computed width is stored and no warning is about
    [j].  The width is below epsilon in particular when every sampled
    state projects to the same finite value on axis [j]. *)
Theorem inferCellDimensions_degenerate (w : World float) (j : nat) :
  conforming P -> j < getDimension P ->
  exists w',
    inferCellDimensions magic P w = (Ok tt, w')
    /\ (degenerate (extent_width magic P j (sampled w)) = true ->
        nth_error (cellDimensions_ w') j = Some 1
        /\ warnings_for j (console w') = S (warnings_for j (console w)))
    /\ (degenerate (extent_width magic P j (sampled w)) = false ->
        nth_error (cellDimensions_ w') j = Some (extent_width magic P j (sampled w))
        /\ warnings_for j (console w') = warnings_for j (console w))
    /\ (forall v : float,
          float_finite v = true ->
          0 < PROJECTION_EXTENTS_SAMPLES magic ->
          float_regular (PROJECTION_DIMENSION_SPLITS magic) = true ->
          (forall k, sampled w <= k < sampled w + PROJECTION_EXTENTS_SAMPLES magic ->
                     nth_error (project P (sampleUniform (manifold_ P) k)) j = Some v) ->
          degenerate (extent_width magic P j (sampled w)) = true).
Proof.
  intros HP Hj. exists (inferred magic P w).
  split; [apply inferCellDimensions_run; auto; lia|].
  rewrite inferred_cell, inferred_warnings by assumption.
  unfold cell_width.
  split; [|split].
  - intros ->. split; auto. lia.
  - intros ->. split; auto.
  - intros v Hv HN Hs Hflat.
    unfold extent_width.
    destruct (flat_axis State P j (sampled w) _ v HN Hflat) as [-> ->].
    unfold lower, higher. cbn [fltb finfinity fopp float_Double float_Scalar Double_Scalar].
    rewrite float_below_infinity, float_above_neg_infinity by assumption.
    now apply float_flat_degenerate.
Qed.

End DegenerateAxes.

Section MapM.
Context {A B : Type}.
Variable f : A -> Outcome B.

Lemma mapM_never_throws (l : list A) :
  (forall x e, f x <> Throw e) -> forall e, mapM f l <> Throw e.
Proof.
  intros Hf e. induction l as [|x l IH]; simpl; [discriminate|].
  specialize (Hf x).
  destruct (f x) as [y| |]; simpl; try discriminate.
  - destruct (mapM f l); simpl; (discriminate || auto).
  - now destruct (Hf e0).
Qed.

Lemma mapM_undefined (l : list A) (x : A) :
  (forall x e, f x <> Throw e) -> In x l -> f x = Undefined ->
  mapM f l = Undefined.
Proof.
  intros Hf Hin Hx. induction l as [|y l IH]; [contradiction|].
  simpl. destruct Hin as [->|Hin].
  - now rewrite Hx.
  - specialize (IH Hin). rewrite IH.
    pose proof (Hf y) as Hy. destruct (f y) as [b|e|]; simpl; auto.
    now destruct (Hy e).
Qed.

Lemma mapM_ext (g : A -> Outcome B) (l : list A) :
  (forall x, In x l -> f x = g x) -> mapM f l = mapM g l.
Proof.
  induction l as [|x l IH]; intros H; simpl; auto.
  rewrite (H x) by now left.
  rewrite IH by (intros y Hy; apply H; now right). reflexivity.
Qed.

Lemma mapM_ok (g : A -> B) (l : list A) :
  (forall x, In x l -> f x = Ok (g x)) -> mapM f l = Ok (map g l).
Proof.
  induction l as [|x l IH]; intros H; simpl; auto.
  rewrite (H x) by now left. simpl.
  rewrite IH by (intros y Hy; apply H; now right). reflexivity.
Qed.

End MapM.

Section Coordinates.
Import ProjectionEvaluator Extent.
Context {F : Type} {DF : Double F}.
Variable State : Type.
Variable P : Projection F State.

Lemma coordinate_never_throws (projection cells : list F) (i : nat) (e : Exception) :
  coordinate projection cells i <> Throw e.
Proof.
  unfold coordinate.
  destruct (nth_error projection i), (nth_error cells i); try discriminate.
  destruct (int_floor _); discriminate.
Qed.

(** C9, as amended. [computeCoordinates] checks nothing: it never throws;
    when fewer cell dimensions are stored than the dimension it reads past
    the end of the stored vector; and otherwise it works with the first
    [getDimension()] stored cell dimensions, whatever else is stored. *)
Theorem computeCoordinates_unchecked (projection : list F) (w : World F) :
  (forall e, computeCoordinates P projection w <> Throw e)
  /\ (length (cellDimensions_ w) < getDimension P ->
      computeCoordinates P projection w = Undefined)
  /\ (getDimension P <= length (cellDimensions_ w) ->
      computeCoordinates P projection w
      = computeCoordinates P projection
          {| cellDimensions_ := firstn (getDimension P) (cellDimensions_ w);
             sampled := sampled w;
             console := console w |}).
Proof.
  split; [|split].
  - apply mapM_never_throws. intros i e. apply coordinate_never_throws.
  - intros Hlen. unfold computeCoordinates.
    apply mapM_undefined with (x := length (cellDimensions_ w)).
    + intros i e. apply coordinate_never_throws.
    + apply in_seq. lia.
    + unfold coordinate.
      replace (nth_error (cellDimensions_ w) (length (cellDimensions_ w))) with (@None F)
        by (symmetry; apply nth_error_None; lia).
      now destruct (nth_error projection _).
  - intros Hlen. unfold computeCoordinates. cbn [cellDimensions_].
    apply mapM_ext. intros i Hi. apply in_seq in Hi.
    unfold coordinate. rewrite nth_error_firstn.
    now replace (i <? getDimension P) with true by (symmetry; apply Nat.ltb_lt; lia).
Qed.

End Coordinates.

Lemma SFfloor_spec (x : spec_float) (n : Z) :
  SFfloor x = Some n ->
  (inject_Z n <= SF2Q x)%Q /\ (SF2Q x < inject_Z (n + 1))%Q.
Proof.
  destruct x as [s| | |s m e]; simpl; try discriminate.
  - intros [= <-]. split; [apply Qle_refl | reflexivity].
  - intros [= <-]. destruct (0 <=? e)%Z eqn:E.
    + split; [apply Qle_refl|].
      rewrite <- Zlt_Qlt. lia.
    + apply Z.leb_gt in E.
      assert (Hd : (0 < 2 ^ (- e))%Z) by (apply Z.pow_pos_nonneg; lia).
      set (a := cond_Zopp s (Z.pos m)). set (d := (2 ^ (- e))%Z) in *.
      unfold Qle, Qlt; cbn [Qnum Qden inject_Z].
      rewrite Z2Pos.id by assumption.
      pose proof (Z.mul_div_le a d Hd).
      pose proof (Z.mul_succ_div_gt a d Hd).
      split; lia.
Qed.

Section Floor.
Import ProjectionEvaluator Extent.
Local Open Scope float_scope.
Variable State : Type.
Variable P : Projection float State.

Lemma coordinate_floor (projection cells : list float) (i : nat) (n : Z) :
  i < length projection -> i < length cells ->
  float_floor (nth i projection 0 / nth i cells 0) = Some n ->
  in_int_range n = true ->
  coordinate projection cells i = Ok n.
Proof.
  intros Hp Hc Hn Hr. unfold coordinate.
  rewrite (nth_error_nth' projection 0 Hp), (nth_error_nth' cells 0 Hc).
  cbn [int_floor float_Double fdiv float_Scalar Double_Scalar].
  unfold float_int_floor, int_cast. now rewrite Hn, Hr.
Qed.

(** C1, as amended. On a configured evaluator and a projection of the
    right length, when on every axis the quotient
    [projection[i] / cellDimensions_[i]] is finite and its floor lies in the
    range of [int], [computeCoordinates] returns on every axis that floor,
    the greatest integer not above the quotient (so it rounds toward minus
    infinity); with cell width 1.0 the values -0.5, 0.0, 0.99, 1.0, 1.01
    get the coordinates -1, 0, 0, 1, 1. *)
Theorem computeCoordinates_floor (projection : list float) (w : World float) :
  length (cellDimensions_ w) = getDimension P ->
  length projection = getDimension P ->
  (forall i, i < getDimension P ->
     exists n, float_floor (nth i projection 0 / nth i (cellDimensions_ w) 0) = Some n
               /\ (INT_MIN <= n <= INT_MAX)%Z) ->
  exists coord,
    computeCoordinates P projection w = Ok coord
    /\ length coord = getDimension P
    /\ (forall i, i < getDimension P ->
          let q := nth i projection 0 / nth i (cellDimensions_ w) 0 in
          let n := nth i coord 0%Z in
          float_floor q = Some n
          /\ (inject_Z n <= SF2Q (Prim2SF q))%Q
          /\ (SF2Q (Prim2SF q) < inject_Z (n + 1))%Q)
    /\ map (fun x => float_int_floor (x / 1)) [-0.5; 0; 0.99; 1; 1.01]
       = [Some (-1)%Z; Some 0%Z; Some 0%Z; Some 1%Z; Some 1%Z].
Proof.
  intros Hc Hp Hq.
  exists (map (floor_quotient projection (cellDimensions_ w)) (seq 0 (getDimension P))).
  split; [|split; [|split]].
  - apply mapM_ok. intros i Hi. apply in_seq in Hi.
    destruct (Hq i) as (n & Hn & Hr); [lia|].
    unfold floor_quotient. rewrite Hn.
    apply coordinate_floor; auto; try lia.
    unfold in_int_range. apply andb_true_iff. split; apply Z.leb_le; lia.
  - now rewrite length_map, length_seq.
  - intros i Hi q n.
    assert (Hn : float_floor q = Some n).
    { subst n. rewrite nth_indep with (d' := floor_quotient projection (cellDimensions_ w) 0)
        by (rewrite length_map, length_seq; lia).
      rewrite map_nth, seq_nth by lia. cbn [plus].
      unfold floor_quotient. fold q.
      destruct (Hq i Hi) as (n & Hn & _). fold q in Hn. now rewrite Hn. }
    split; auto. now apply SFfloor_spec.
  - vm_compute. reflexivity.
Qed.

End Floor.

(* ================================================================== *)
(** * The shape of the matrix *)
(* ================================================================== *)

Section Shape.
Import ProjectionMatrix.
Context {F : Type} {SF : Scalar F}.

Lemma shaped_nth (from to : nat) (m : Matrix F) (i : nat) :
  shaped from to m -> i < to -> length (nth i m []) = from.
Proof.
  intros [Hl Hall] Hi. rewrite Forall_forall in Hall.
  apply Hall, nth_In. lia.
Qed.

Lemma fill_shaped (from to : nat) (rng : RNG F) : shaped from to (fill from to rng).
Proof.
  unfold fill. split.
  - now rewrite length_map, length_seq.
  - apply Forall_map, Forall_forall. intros i _.
    now rewrite length_map, length_seq.
Qed.

Lemma subtract_projection_length (row prevRow : Row F) :
  length prevRow = length row ->
  length (subtract_projection row prevRow) = length row.
Proof.
  intros H. unfold subtract_projection.
  rewrite map2_length; rewrite ?length_map; auto.
Qed.

Lemma normalize_length (row : Row F) : length (normalize row) = length row.
Proof. unfold normalize. apply length_map. Qed.

(** The row after the first [t] subtractions. *)
Lemma orthogonalize_prefix_length (from to : nat) (m : Matrix F) (i t : nat) :
  shaped from to m -> i < to -> t <= i ->
  length (fold_left (fun row j => subtract_projection row (nth j m []))
                    (seq 0 t) (nth i m [])) = from.
Proof.
  intros Hm Hi. induction t as [|t IH]; intros Ht.
  - simpl. now apply shaped_nth with to.
  - rewrite seq_S, fold_left_app. simpl.
    rewrite subtract_projection_length; rewrite IH by lia; auto.
    apply shaped_nth with to; auto; lia.
Qed.

Lemma orthogonalize_length (from to : nat) (m : Matrix F) (i : nat) :
  shaped from to m -> i < to -> length (orthogonalize m i) = from.
Proof.
  intros Hm Hi. unfold orthogonalize.
  now apply orthogonalize_prefix_length with to.
Qed.

Lemma Forall_update {A : Type} (Q : A -> Prop) (i : nat) (x : A) (l : list A) :
  Forall Q l -> Q x -> Forall Q (update i x l).
Proof.
  intros Hl Hx. revert i. induction Hl as [|y l Hy Hl IH]; intros [|i]; simpl; auto.
Qed.

Lemma orthonormalize_row_shaped (from to : nat) (m : Matrix F) (i : nat) :
  shaped from to m -> i < to -> shaped from to (orthonormalize_row m i).
Proof.
  intros Hm Hi. pose proof Hm as [Hl Hall]. unfold orthonormalize_row. split.
  - now rewrite update_length.
  - apply Forall_update; auto.
    rewrite normalize_length. now apply orthogonalize_length with to.
Qed.

(** The matrix after the rows [1 .. i - 1] have been processed. *)
Lemma orthonormalize_succ (m : Matrix F) (i : nat) :
  1 <= i -> orthonormalize (S i) m = orthonormalize_row (orthonormalize i m) i.
Proof.
  intros Hi. unfold orthonormalize.
  assert (H : S i - 1 = S (i - 1)) by lia.
  rewrite H, seq_S, fold_left_app. cbn [fold_left].
  assert (H' : 1 + (i - 1) = i) by lia.
  now rewrite H'.
Qed.

Lemma orthonormalize_one (m : Matrix F) : orthonormalize 1 m = m.
Proof. reflexivity. Qed.

Lemma orthonormalize_shaped (from to : nat) (m : Matrix F) (i : nat) :
  shaped from to m -> i <= to -> shaped from to (orthonormalize i m).
Proof.
  intros Hm. induction i as [|i IH]; intros Hi; [exact Hm|].
  destruct i as [|i]; [exact Hm|].
  rewrite orthonormalize_succ by lia.
  apply orthonormalize_row_shaped; [apply IH|]; lia.
Qed.

Lemma nth_update_same {A : Type} (i : nat) (x d : A) (l : list A) :
  i < length l -> nth i (update i x l) d = x.
Proof.
  revert i; induction l as [|h t IH]; intros [|i] Hi; simpl in *; try lia; auto.
  apply IH; lia.
Qed.

Lemma nth_update_other {A : Type} (i k : nat) (x d : A) (l : list A) :
  i <> k -> nth k (update i x l) d = nth k l d.
Proof.
  revert i k; induction l as [|h t IH]; intros [|i] [|k] Hik; simpl; auto;
    try contradiction.
Qed.

(** Processing the rows below [i] leaves the rows from [i] on, and row 0,
    as they are. *)
Lemma orthonormalize_untouched (m : Matrix F) (i k : nat) :
  k = 0 \/ i <= k -> nth k (orthonormalize i m) [] = nth k m [].
Proof.
  induction i as [|i IH]; intros Hk; [reflexivity|].
  destruct i as [|i]; [reflexivity|].
  rewrite orthonormalize_succ by lia. unfold orthonormalize_row.
  rewrite nth_update_other by lia. apply IH. lia.
Qed.

(** Processing the rows from [i] on leaves the rows below [i] as they
    are. *)
Lemma orthonormalize_stable (m : Matrix F) (i i' k : nat) :
  k < i -> i <= i' -> nth k (orthonormalize i' m) [] = nth k (orthonormalize i m) [].
Proof.
  intros Hk. induction i' as [|i' IH]; intros Hi; [lia|].
  destruct (Nat.eq_dec i (S i')) as [->|Hne]; [reflexivity|].
  destruct i' as [|i']; [lia|].
  rewrite orthonormalize_succ by lia. unfold orthonormalize_row.
  rewrite nth_update_other by lia. apply IH. lia.
Qed.

Lemma firstn_snoc_nth {A : Type} (l : list A) (d : A) (n : nat) :
  n < length l -> firstn (S n) l = firstn n l ++ [nth n l d].
Proof.
  revert n; induction l as [|x l IH]; intros [|n] Hn; simpl in *; try lia; auto.
  now rewrite <- IH by lia.
Qed.

Lemma fold_seq_nth {A B : Type} (f : B -> A -> B) (l : list A) (d : A) (n : nat) :
  n <= length l ->
  forall b, fold_left (fun acc j => f acc (nth j l d)) (seq 0 n) b
            = fold_left f (firstn n l) b.
Proof.
  induction n as [|n IH]; intros Hn b; [reflexivity|].
  rewrite seq_S, fold_left_app, (firstn_snoc_nth l d n), fold_left_app by lia.
  cbn [fold_left plus]. now rewrite IH by lia.
Qed.

Lemma fold_left_ext_in {A B : Type} (f g : B -> A -> B) (l : list A) :
  (forall b x, In x l -> f b x = g b x) ->
  forall b, fold_left f l b = fold_left g l b.
Proof.
  induction l as [|x l IH]; intros H b; [reflexivity|].
  cbn [fold_left]. rewrite H by now left. apply IH. intros b' y Hy. apply H. now right.
Qed.

Lemma nth_fill_drawn (from to : nat) (rng : RNG F) (i : nat) :
  i < to -> nth i (fill from to rng) [] = drawn from rng i.
Proof. intros Hi. unfold fill, drawn. now rewrite nth_map_seq. Qed.

(** Row [i >= 1] of the orthonormalised matrix, from its draws and the
    rows before it in that matrix. *)
Lemma orthonormalize_recurrence (from to : nat) (rng : RNG F) (i : nat) :
  1 <= i < to ->
  nth i (orthonormalize to (fill from to rng)) []
  = orthonormalized_against (firstn i (orthonormalize to (fill from to rng)))
                            (drawn from rng i).
Proof.
  intros Hi. set (m0 := fill from to rng).
  pose proof (fill_shaped from to rng) as Hm0. fold m0 in Hm0.
  pose proof (orthonormalize_shaped from to m0 i Hm0 ltac:(lia)) as [Hli _].
  pose proof (orthonormalize_shaped from to m0 to Hm0 (le_n to)) as [Hlt _].
  rewrite (orthonormalize_stable m0 (S i) to i) by lia.
  rewrite orthonormalize_succ by lia. unfold orthonormalize_row.
  rewrite nth_update_same by lia.
  unfold orthonormalized_against, orthogonalize. f_equal.
  rewrite orthonormalize_untouched by (right; lia).
  unfold m0 at 2. rewrite nth_fill_drawn by lia.
  rewrite <- (fold_seq_nth subtract_projection (orthonormalize to m0) [] i) by lia.
  apply fold_left_ext_in. intros row j Hj. apply in_seq in Hj.
  now rewrite (orthonormalize_stable m0 i to j) by lia.
Qed.

End Shape.

(* ================================================================== *)
(** * project *)
(* ================================================================== *)

Section Project.
Import ProjectionMatrix.
Context {F : Type} {SF : Scalar F}.

Lemma accumulate_run (vec : Row F) :
  forall (from : list F) (pos : F),
    length vec = length from ->
    accumulate from vec pos = Ok (fold_left fadd (map2 fmul from vec) pos).
Proof.
  induction vec as [|v vec IH]; intros [|x from] pos H; simpl in *; try lia; auto.
Qed.

Lemma accumulate_dot (from : list F) (vec : Row F) :
  length vec = length from -> accumulate from vec fzero = Ok (dot_product from vec).
Proof. intros H. now rewrite accumulate_run. Qed.

(** The loop over the rows, from row [i] on. *)
Lemma project_rows_run (from : list F) (mat : Matrix F) :
  forall (i : nat) (to : list F),
    Forall (fun vec => length vec = length from) mat ->
    i + length mat <= length to ->
    project_rows mat from i to
    = Ok (firstn i to ++ map (dot_product from) mat ++ skipn (i + length mat) to).
Proof.
  induction mat as [|vec mat IH]; intros i to Hall Hto; simpl in *.
  - now rewrite Nat.add_0_r, firstn_skipn.
  - inversion Hall as [|? ? Hvec Hmat]; subst.
    replace (i <? length to) with true by (symmetry; apply Nat.ltb_lt; lia).
    rewrite accumulate_dot by assumption. simpl.
    rewrite IH; auto; [|rewrite update_length; lia].
    f_equal.
    rewrite firstn_update_succ by lia.
    rewrite skipn_update_succ by lia.
    rewrite <- app_assoc. simpl.
    now rewrite Nat.add_succ_r.
Qed.

Lemma project_run (mat : Matrix F) (from to : list F) :
  Forall (fun vec => length vec = length from) mat ->
  length mat <= length to ->
  project mat from to = Ok (map (dot_product from) mat ++ skipn (length mat) to).
Proof.
  intros Hall Hto. unfold project. now rewrite project_rows_run.
Qed.

End Project.

(* ================================================================== *)
(** * The scaling loops *)
(* ================================================================== *)

Section Scaling.
Import ProjectionMatrix.
Context {F : Type} {SF : Scalar F}.

Lemma scale_row_run (scale : list F) (i : nat) (row : Row F) :
  row <> [] ->
  scale_row scale i row
  = match nth_error scale i with
    | None => Undefined
    | Some s => if negligible s then Throw DegenerateScale
                else Ok (map (fun x => fdiv x s) row)
    end.
Proof.
  intros Hrow. unfold scale_row.
  destruct row as [|x row]; [contradiction|]. clear Hrow.
  unfold negligible. simpl. unfold scale_entry at 1.
  destruct (nth_error scale i) as [s|] eqn:Es; auto.
  destruct (fltb (fabs s) fepsilon) eqn:Eb; auto. simpl.
  rewrite mapM_ok with (g := fun x => fdiv x s); auto.
  intros y _. unfold scale_entry. now rewrite Es, Eb.
Qed.

Lemma scale_rows_empty (scale : list F) (rows : Matrix F) :
  forall i, Forall (fun row => length row = 0) rows ->
            scale_rows scale i rows = Ok rows.
Proof.
  induction rows as [|row rows IH]; intros i Hall; simpl; auto.
  inversion Hall as [|? ? Hrow Hrows]; subst.
  destruct row; [|discriminate]. simpl. now rewrite IH.
Qed.

(** The scaling loops throw exactly when one of the entries of [scale]
    that they index, the first [length rows] ones from [i] on, is
    negligible. *)
Lemma scale_rows_throws (scale : list F) (from : nat) (rows : Matrix F) :
  0 < from ->
  Forall (fun row => length row = from) rows ->
  forall (i : nat) (e : Exception),
    scale_rows scale i rows = Throw e
    <-> e = DegenerateScale
        /\ exists k, k < length rows /\ i + k < length scale
                     /\ negligible (nth (i + k) scale fzero) = true.
Proof.
  intros Hfrom Hall. induction Hall as [|row rows Hrow Hall IH]; intros i e.
  - simpl. split; [discriminate|]. intros (_ & k & Hk & _). lia.
  - cbn [scale_rows length]. rewrite scale_row_run by (destruct row; simpl in *; [lia|discriminate]).
    destruct (nth_error scale i) as [s|] eqn:Es.
    + assert (Hi : i < length scale) by (apply nth_error_Some; congruence).
      assert (Hs : nth i scale fzero = s) by now apply nth_error_nth.
      destruct (negligible s) eqn:Eb.
      * cbn [obind]. split.
        -- intros [= <-]. split; auto. exists 0. rewrite Nat.add_0_r, Hs.
           repeat split; auto; lia.
        -- now intros [-> _].
      * cbn [obind]. specialize (IH (S i) e).
        destruct (scale_rows scale (S i) rows) as [rest|e'|] eqn:Er; cbn [obind].
        -- split; [discriminate|]. intros (He & k & Hk & Hik & Hneg).
           destruct k as [|k]; [rewrite Nat.add_0_r, Hs in Hneg; congruence|].
           assert (H : @Ok (Matrix F) rest = Throw e); [|discriminate].
           apply IH. split; auto. exists k.
           replace (S i + k) with (i + S k) by lia. repeat split; auto; lia.
        -- split.
           ++ intros [= <-]. destruct IH as [IH _].
              destruct (IH eq_refl) as (He & k & Hk & Hik & Hneg).
              split; auto. exists (S k).
              replace (i + S k) with (S i + k) by lia. repeat split; auto; lia.
           ++ intros (He & k & Hk & Hik & Hneg).
              destruct k as [|k]; [rewrite Nat.add_0_r, Hs in Hneg; congruence|].
              apply IH. split; auto. exists k.
              replace (S i + k) with (i + S k) by lia. repeat split; auto; lia.
        -- split; [discriminate|]. intros (He & k & Hk & Hik & Hneg).
           destruct k as [|k]; [rewrite Nat.add_0_r, Hs in Hneg; congruence|].
           assert (H : @Undefined (Matrix F) = Throw e); [|discriminate].
           apply IH. split; auto. exists k.
           replace (S i + k) with (i + S k) by lia. repeat split; auto; lia.
    + cbn [obind]. split; [discriminate|].
      intros (_ & k & _ & Hik & _). apply nth_error_None in Es. lia.
Qed.

(** X1. What [ComputeRandom] does with its scale vector: it throws, and
    then the scaling exception, exactly when the vector has [from] entries,
    [from] is positive, and one of its first [to] entries is below epsilon
    in magnitude. *)
Theorem ComputeRandom_throws (from to : nat) (scale : list F) (rng : RNG F) (e : Exception) :
  ComputeRandom from to scale rng = Throw e
  <-> e = DegenerateScale /\ length scale = from /\ 0 < from
      /\ exists i, i < to /\ i < from /\ negligible (nth i scale fzero) = true.
Proof.
  unfold ComputeRandom.
  pose proof (orthonormalize_shaped from to (fill from to rng) to
                (fill_shaped from to rng) (le_n to)) as [Hlen Hall].
  destruct (length scale =? from) eqn:E.
  - apply Nat.eqb_eq in E.
    destruct from as [|from].
    + rewrite scale_rows_empty by assumption. split; [discriminate|].
      intros (_ & _ & H & _). lia.
    + rewrite (scale_rows_throws scale (S from)) by (auto; lia).
      rewrite Hlen, E. cbn [plus]. split.
      * intros (He & k & Hk & Hik & Hneg). repeat split; auto; try lia. now exists k.
      * intros (He & _ & _ & k & Hk & Hik & Hneg). split; auto. now exists k.
  - apply Nat.eqb_neq in E. split; [discriminate|]. intros (_ & H & _). contradiction.
Qed.

(** X2. Unless the scale vector has [from] entries, [ComputeRandom]
    returns a matrix of [to] rows of [from] entries, whose row 0 holds the
    first [from] draws as they were made. *)
Theorem ComputeRandom_shape (from to : nat) (scale : list F) (rng : RNG F) :
  length scale <> from ->
  exists m,
    ComputeRandom from to scale rng = Ok m
    /\ shaped from to m
    /\ (0 < to -> nth 0 m [] = map rng (seq 0 from)).
Proof.
  intros Hscale. exists (orthonormalize to (fill from to rng)).
  split; [|split].
  - unfold ComputeRandom.
    now replace (length scale =? from) with false by (symmetry; now apply Nat.eqb_neq).
  - apply orthonormalize_shaped; [apply fill_shaped | lia].
  - intros Hto. rewrite orthonormalize_untouched by now left.
    unfold fill. now rewrite nth_map_seq.
Qed.

End Scaling.

(* ================================================================== *)
(** * Exact arithmetic *)
(* ================================================================== *)

Section Exact.
Import ProjectionMatrix.
Local Open Scope R_scope.

Lemma sum_cons (x : R) (v : list R) : sum (x :: v) = x + sum v.
Proof.
  unfold sum. cbn [rev]. destruct (rev v) as [|y rest]; cbn [app fold_left].
  - cbn [fadd fzero R_Scalar]. lra.
  - rewrite fold_left_app. cbn [fold_left fadd R_Scalar]. lra.
Qed.

Lemma dot_nil_l (b : list R) : dot [] b = 0.
Proof. reflexivity. Qed.

Lemma dot_nil_r (a : list R) : dot a [] = 0.
Proof. now destruct a. Qed.

Lemma dot_cons (x y : R) (a b : list R) : dot (x :: a) (y :: b) = x * y + dot a b.
Proof. unfold dot. cbn [map2]. now rewrite sum_cons. Qed.

Lemma fold_left_Rplus_from (v : list R) (a : R) :
  fold_left Rplus v a = a + fold_left Rplus v 0.
Proof.
  revert a; induction v as [|x v IH]; intros a; cbn [fold_left].
  - lra.
  - rewrite IH, (IH (0 + x)). lra.
Qed.

(** In exact arithmetic the order of the additions does not matter: the
    accumulation of [project] and the sum of a [valarray] agree. *)
Lemma dot_product_exact (a b : list R) : dot_product a b = dot a b.
Proof.
  unfold dot_product, dot. cbn [fadd fmul fzero R_Scalar].
  induction (map2 Rmult a b) as [|x v IH]; [reflexivity|].
  rewrite sum_cons, <- IH. cbn [fold_left]. rewrite fold_left_Rplus_from. lra.
Qed.

Lemma dot_comm (a : list R) : forall b, dot a b = dot b a.
Proof.
  induction a as [|x a IH]; intros [|y b]; auto.
  rewrite !dot_cons, IH. lra.
Qed.

Lemma dot_self_nonneg (a : list R) : 0 <= dot a a.
Proof.
  induction a as [|x a IH]; [rewrite dot_nil_l; lra|].
  rewrite dot_cons. nra.
Qed.

(** [(r - c * p) . q = r . q - c * (p . q)] *)
Lemma dot_sub_scaled (c : R) (r : list R) :
  forall p q, length p = length r ->
    dot (map2 Rminus r (map (Rmult c) p)) q = dot r q - c * dot p q.
Proof.
  induction r as [|x r IH]; intros [|y p] q H; simpl in *; try lia.
  - rewrite !dot_nil_l. lra.
  - destruct q as [|z q]; [rewrite !dot_nil_r; lra|].
    rewrite !dot_cons, IH by lia. lra.
Qed.

Lemma dot_subtract_projection (r p q : list R) :
  length p = length r ->
  dot (subtract_projection r p) q = dot r q - dot r p * dot p q.
Proof.
  intros H. unfold subtract_projection. cbn [fsub fmul R_Scalar].
  now apply dot_sub_scaled.
Qed.

(** [(r / s) . q = (r . q) / s] *)
Lemma dot_div (s : R) (r : list R) :
  forall q, dot (map (fun x => x / s) r) q = dot r q / s.
Proof.
  induction r as [|x r IH]; intros q; simpl.
  - rewrite !dot_nil_l. unfold Rdiv. lra.
  - destruct q as [|z q]; [rewrite !dot_nil_r; unfold Rdiv; lra|].
    rewrite !dot_cons, IH. unfold Rdiv. lra.
Qed.

Lemma dot_normalize (r q : list R) :
  dot (normalize r) q = dot r q / sqrt (dot r r).
Proof.
  unfold normalize. cbn [fdiv fsqrt R_Scalar]. apply dot_div.
Qed.

Lemma normalize_unit (r : list R) :
  dot r r <> 0 -> dot (normalize r) (normalize r) = 1.
Proof.
  intros Hr.
  assert (Hpos : 0 < dot r r) by (pose proof (dot_self_nonneg r); lra).
  rewrite dot_normalize, dot_comm, dot_normalize.
  pose proof (sqrt_lt_R0 _ Hpos) as Hs.
  pose proof (sqrt_sqrt (dot r r) (Rlt_le _ _ Hpos)) as Hss.
  set (s := sqrt (dot r r)) in *. rewrite <- Hss at 1. field. lra.
Qed.

End Exact.

Section GramSchmidt.
Import ProjectionMatrix.

(** After the first [t] subtractions the row is orthogonal to the rows
    [1 .. t - 1]. *)
Lemma orthogonalize_prefix (from to : nat) (m : Matrix R) (i t : nat) :
  shaped from to m -> i < to -> orthonormal_below m i -> t <= i ->
  forall k, 1 <= k < t ->
    dot (fold_left (fun row j => subtract_projection row (nth j m []))
                   (seq 0 t) (nth i m []))
        (nth k m []) = 0%R.
Proof.
  intros Hm Hi [Hunit Horth]. induction t as [|t IH]; intros Ht k Hk; [lia|].
  rewrite seq_S, fold_left_app. cbn [fold_left plus].
  set (r := fold_left _ (seq 0 t) _) in *.
  assert (Hr : length r = from)
    by (apply (orthogonalize_prefix_length from to); auto; lia).
  assert (Hp : length (nth t m []) = from) by (apply shaped_nth with to; auto; lia).
  rewrite dot_subtract_projection by congruence.
  destruct (Nat.eq_dec k t) as [->|Hne].
  - rewrite Hunit by lia. lra.
  - rewrite IH by lia. rewrite (Horth k t) by lia. lra.
Qed.

Lemma orthogonalize_orthogonal (from to : nat) (m : Matrix R) (i k : nat) :
  shaped from to m -> i < to -> orthonormal_below m i -> 1 <= k < i ->
  dot (orthogonalize m i) (nth k m []) = 0%R.
Proof.
  intros Hm Hi Hon Hk. unfold orthogonalize.
  now apply (orthogonalize_prefix from to m i i).
Qed.

Lemma orthonormalize_orthonormal (from to : nat) (rng : RNG R) (i : nat) :
  nondegenerate from to rng -> 1 <= i <= to ->
  orthonormal_below (orthonormalize i (fill from to rng)) i.
Proof.
  intros Hnd. induction i as [|i IH]; intros Hi; [lia|].
  destruct (Nat.eq_dec i 0) as [->|Hi0].
  - split; intros; lia.
  - specialize (IH ltac:(lia)).
    pose proof (orthonormalize_shaped from to (fill from to rng) i
                  (fill_shaped from to rng) ltac:(lia)) as Hsh.
    set (m := orthonormalize i (fill from to rng)) in *.
    rewrite orthonormalize_succ by lia. fold m.
    unfold orthonormalize_row.
    assert (Hlen : i < length m) by (destruct Hsh; lia).
    destruct IH as [Hunit Horth]. split.
    + intros k Hk. destruct (Nat.eq_dec k i) as [->|Hne].
      * rewrite nth_update_same by assumption.
        apply normalize_unit. apply (Hnd i). lia.
      * rewrite nth_update_other by lia. apply Hunit. lia.
    + intros j k Hj Hk. rewrite (nth_update_other i j) by lia.
      destruct (Nat.eq_dec k i) as [->|Hne].
      * rewrite nth_update_same by assumption.
        rewrite dot_normalize.
        rewrite (orthogonalize_orthogonal from to) by (auto; try lia; now split).
        unfold Rdiv. lra.
      * rewrite nth_update_other by lia. apply Horth; lia.
Qed.

(** C2, as amended.  For every scalar type, binary64 included:
    [ComputeRandom] without scaling returns a matrix of [to] rows of
    [from] entries in which row 0 holds its draws as they were made, and
    every row [i >= 1] is what is left of its draws after
    [(row * prevRow).sum() * prevRow] has been subtracted for every row
    before it in the result, row 0 (which is not normalised) first, divided
    by the square root of [(row * row).sum()].  In exact arithmetic, and
    for draws with which no row vanishes before it is normalised, every
    row [i >= 1] then has unit norm and is orthogonal to every row [j]
    with [1 <= j < i]. *)
Theorem ComputeRandom_orthonormal :
  (forall (F : Type) (SF : Scalar F) (from to : nat) (rng : RNG F),
      1 <= from -> 1 <= to ->
      exists m,
        ComputeRandom from to [] rng = Ok m
        /\ shaped from to m
        /\ nth 0 m [] = drawn from rng 0
        /\ forall i, 1 <= i < to ->
             nth i m [] = orthonormalized_against (firstn i m) (drawn from rng i))
  /\ (forall (from to : nat) (rng : RNG R),
         1 <= from -> 2 <= to -> nondegenerate from to rng ->
         exists m,
           ComputeRandom from to [] rng = Ok m
           /\ (forall i, 1 <= i < to -> dot (nth i m []) (nth i m []) = 1%R)
           /\ (forall i j, 1 <= j < i -> i < to ->
                           dot (nth i m []) (nth j m []) = 0%R)).
Proof.
  assert (Hrun : forall (F : Type) (SF : Scalar F) (from to : nat) (rng : RNG F),
             1 <= from ->
             ComputeRandom from to [] rng = Ok (orthonormalize to (fill from to rng))).
  { intros F SF from to rng Hfrom. unfold ComputeRandom. cbn [length].
    now replace (0 =? from) with false by (symmetry; apply Nat.eqb_neq; lia). }
  split.
  - intros F SF from to rng Hfrom Hto.
    exists (orthonormalize to (fill from to rng)).
    split; [now apply Hrun|]. split; [|split].
    + apply orthonormalize_shaped; [apply fill_shaped | lia].
    + rewrite orthonormalize_untouched by now left.
      apply nth_fill_drawn. lia.
    + intros i Hi. now apply orthonormalize_recurrence.
  - intros from to rng Hfrom Hto Hnd.
    exists (orthonormalize to (fill from to rng)).
    destruct (orthonormalize_orthonormal from to rng to Hnd ltac:(lia)) as [Hunit Horth].
    split; [now apply Hrun|]. split; auto.
Qed.

End GramSchmidt.

Section Linear.
Import ProjectionMatrix.

Lemma combine_length (a b : R) (x y : list R) :
  length y = length x -> length (combine a x b y) = length x.
Proof.
  intros H. unfold combine. rewrite map2_length; rewrite !length_map; auto.
Qed.

Lemma dot_combine (a b : R) (x : list R) :
  forall y v, length y = length x ->
    dot_product (combine a x b y) v = (a * dot_product x v + b * dot_product y v)%R.
Proof.
  intros y v. rewrite !dot_product_exact. revert y v. unfold combine.
  induction x as [|x0 x IH]; intros [|y0 y] v H; simpl in *; try lia.
  - rewrite !dot_nil_l. lra.
  - destruct v as [|v0 v]; [rewrite !dot_nil_r; lra|].
    rewrite !dot_cons, IH by lia. lra.
Qed.

(** C4, as amended.  For every scalar type, binary64 included: [project]
    returns for every matrix of rows as long as the source and every
    destination with room for one value per row; it changes exactly the
    first [length mat] entries of the destination, entry [i] becoming the
    dot product of the source with row [i], the products added to 0.0 in
    index order.  In exact arithmetic these values are linear in the
    source. *)
Theorem project_dot_products :
  (forall (F : Type) (SF : Scalar F) (mat : Matrix F) (from to : list F),
      Forall (fun vec => length vec = length from) mat ->
      length mat <= length to ->
      exists out,
        project mat from to = Ok out
        /\ length out = length to
        /\ (forall i, i < length mat ->
              nth_error out i = Some (dot_product from (nth i mat [])))
        /\ (forall i, length mat <= i -> nth_error out i = nth_error to i))
  /\ (forall (mat : Matrix R) (x y to : list R) (a b : R),
         Forall (fun vec => length vec = length x) mat ->
         length y = length x ->
         length mat <= length to ->
         exists px py pxy,
           project mat x to = Ok px
           /\ project mat y to = Ok py
           /\ project mat (combine a x b y) to = Ok pxy
           /\ forall i, i < length mat ->
                nth i pxy 0%R = (a * nth i px 0 + b * nth i py 0)%R).
Proof.
  split.
  - intros F SF mat from to Hall Hto.
    exists (map (dot_product from) mat ++ skipn (length mat) to).
    split; [now apply project_run|]. split; [|split].
    + rewrite length_app, length_map, length_skipn. lia.
    + intros i Hi. rewrite nth_error_app1 by now rewrite length_map.
      rewrite nth_error_map, (nth_error_nth' mat [] Hi). reflexivity.
    + intros i Hi. rewrite nth_error_app2 by now rewrite length_map.
      rewrite length_map, nth_error_skipn. f_equal. lia.
  - intros mat x y to a b Hx Hy Hto.
    assert (Hxy : Forall (fun vec => length vec = length (combine a x b y)) mat)
      by (rewrite combine_length by assumption; exact Hx).
    assert (Hy' : Forall (fun vec => length vec = length y) mat)
      by (rewrite Hy; exact Hx).
    exists (map (dot_product x) mat ++ skipn (length mat) to),
           (map (dot_product y) mat ++ skipn (length mat) to),
           (map (dot_product (combine a x b y)) mat ++ skipn (length mat) to).
    rewrite !project_run by assumption.
    repeat split; auto.
    intros i Hi. rewrite !app_nth1 by now rewrite length_map.
    rewrite !(nth_map_in _ mat i []) by assumption.
    now apply dot_combine.
Qed.

End Linear.

(* ================================================================== *)
(** * Runs of the matrix builder *)
(* ================================================================== *)

Section MatrixRuns.
Import ProjectionMatrix Examples.
Local Open Scope float_scope.

Ltac evaluate :=
  cbv [orthogonalize fill seq map nth draws9 near_parallel drawing fold_left
       subtract_projection dot sum rev app map2 fadd fmul fsub fzero R_Scalar
       Nat.mul Nat.add update normalize fdiv fsqrt].

Lemma sqrt_of_square (e s : R) : (0 <= s)%R -> e = (s * s)%R -> sqrt e = s.
Proof. intros Hs ->. now apply sqrt_square. Qed.

Lemma draws9_nondegenerate : nondegenerate 3 3 (drawing 0%R draws9).
Proof.
  intros i Hi.
  assert (Hi' : i = 1%nat \/ i = 2%nat) by lia. destruct Hi' as [-> | ->].
  - unfold residual. rewrite orthonormalize_one. evaluate. lra.
  - unfold residual. rewrite orthonormalize_succ by lia. rewrite orthonormalize_one.
    unfold orthonormalize_row. evaluate.
    match goal with
    | |- context [sqrt ?e] => rewrite (sqrt_of_square e 5) by lra
    end.
    lra.
Qed.

(** In exact arithmetic no row vanishes with the nearly parallel rows:
    what is left of row 2 is (0, -0.48, 0.36) * 2^-50. *)
Lemma near_parallel_nondegenerate : nondegenerate 3 3 (drawing 0%R near_parallel).
Proof.
  intros i Hi.
  assert (Hi' : i = 1%nat \/ i = 2%nat) by lia. destruct Hi' as [-> | ->].
  - unfold residual. rewrite orthonormalize_one. evaluate. lra.
  - unfold residual. rewrite orthonormalize_succ by lia. rewrite orthonormalize_one.
    unfold orthonormalize_row. evaluate.
    match goal with
    | |- context [sqrt ?e] => rewrite (sqrt_of_square e 5) by lra
    end.
    assert (He : (0 < / 2 ^ 50)%R) by (apply Rinv_0_lt_compat, pow_lt; lra).
    set (e := (/ 2 ^ 50)%R) in *.
    match goal with |- ?d <> _ => assert (H : d = (9 / 25 * (e * e))%R) by field end.
    rewrite H. nra.
Qed.

(** Counterexample to C2 as stated, in three ways.
    - Row 0: with the draws 2, 0, 1, 1 row 1 is returned with the dot
      product -1.897... against row 0, far from 0, and the same run in
      exact arithmetic gives a dot product other than 0.
    - Rounding: with the rows (2,0,0), (0,3,4), (0,3,4 + 2^-50), with
      which no row vanishes in exact arithmetic, the binary64 run returns
      row 2 as (0,-1,0), whose dot product with row 1 is -0.6.
    - Vanishing rows: with one column and three rows the binary64 run
      returns row 2 as NaN, and with draws that are all zero row 1 as NaNs,
      whose norm is within no tolerance of 1 (in exact arithmetic the row
      is zero). *)
Lemma ComputeRandom_not_orthonormal :
  (exists row0 row1,
      ComputeRandom 2 2 [] (drawing 0 [2; 0; 1; 1]) = Ok [row0; row1]
      /\ dot row1 row0 = -1.8973665961010275
      /\ within 1e-9 (dot row1 row0) 0 = false)
  /\ (exists row0 row1,
         ComputeRandom 2 2 [] (drawing 0%R [2; 0; 1; 1]%R) = Ok [row0; row1]
         /\ dot row1 row0 <> 0%R)
  /\ (nondegenerate 3 3 (drawing 0%R near_parallel)
      /\ exists row0 row1,
           ComputeRandom 3 3 [] (drawing 0 near_parallel_double)
           = Ok [row0; row1; [0; -1; 0]]
           /\ dot [0; -1; 0] row1 = -0.6
           /\ within 1e-9 (dot [0; -1; 0] row1) 0 = false)
  /\ ComputeRandom 1 3 [] (drawing 0 [0.5; 0.25; 0.75]) = Ok [[0.5]; [1]; [nan]]
  /\ (exists row0 row1,
         ComputeRandom 2 2 [] (drawing 0 [0; 0; 0; 0]) = Ok [row0; row1]
         /\ within 1e-9 (dot row1 row1) 1 = false)
  /\ (exists row0 row1,
         ComputeRandom 2 2 [] (drawing 0%R [0; 0; 0; 0]%R) = Ok [row0; row1]
         /\ dot row1 row1 <> 1%R).
Proof.
  split; [|split; [|split; [|split; [|split]]]].
  - do 2 eexists; vm_compute; auto.
  - do 2 eexists. split; [reflexivity|]. evaluate.
    match goal with |- context [sqrt ?e] => set (s := sqrt e); assert (Hs : (0 < s)%R) end.
    { apply sqrt_lt_R0. lra. }
    apply Rinv_0_lt_compat in Hs. unfold Rdiv. lra.
  - split; [exact near_parallel_nondegenerate|].
    do 2 eexists; vm_compute; auto.
  - vm_compute. reflexivity.
  - do 2 eexists; vm_compute; auto.
  - do 2 eexists. split; [reflexivity|]. evaluate.
    match goal with |- ?d <> _ => assert (H : d = 0%R) by (unfold Rdiv; ring) end.
    rewrite H. lra.
Qed.

(** C2 on the rows (2,0,0), (1,4,0), (0,25,20), with which no row
    vanishes: in binary64, and in exact arithmetic. *)
Lemma ComputeRandom_orthonormal_witness :
  (exists m,
      ComputeRandom 3 3 [] (drawing 0 draws9_double) = Ok m
      /\ shaped 3 3 m
      /\ nth 0 m [] = drawn 3 (drawing 0 draws9_double) 0
      /\ forall i, (1 <= i < 3)%nat ->
           nth i m []
           = orthonormalized_against (firstn i m) (drawn 3 (drawing 0 draws9_double) i))
  /\ (exists m,
         ComputeRandom 3 3 [] (drawing 0%R draws9) = Ok m
         /\ (forall i, (1 <= i < 3)%nat -> dot (nth i m []) (nth i m []) = 1%R)
         /\ (forall i j, (1 <= j < i)%nat -> (i < 3)%nat ->
                         dot (nth i m []) (nth j m []) = 0%R)).
Proof.
  split.
  - apply (proj1 ComputeRandom_orthonormal float float_Scalar 3%nat 3%nat
             (drawing 0 draws9_double)); lia.
  - apply (proj2 ComputeRandom_orthonormal 3%nat 3%nat (drawing 0%R draws9)).
    + lia.
    + lia.
    + exact draws9_nondegenerate.
Defined.

(** The binary64 run, evaluated: row 0 is as drawn, the rows 1 and 2 are
    (-3,4,0)/5 and (12,9,20)/25 up to rounding, and row 1 is not
    orthogonal to row 0. *)
Example ComputeRandom_run_9 :
  ComputeRandom 3 3 [] (drawing 0 draws9_double)
  = Ok [[2; 0; 0];
        [-0.59999999999999998; 0.80000000000000004; 0];
        [0.47999999999999998; 0.35999999999999999; 0.80000000000000004]]
  /\ dot [-0.59999999999999998; 0.80000000000000004; 0] [2; 0; 0] = -1.2.
Proof. vm_compute. auto. Qed.

(** C3, the run on which the code departs from it: the scale vector has
    [from = 3] entries and its last one, 1e-20, is below epsilon, but with
    [to = 2] only the first two entries are tested, and a matrix is
    returned whatever the draws are. *)
Theorem ComputeRandom_degenerate_scale_accepted :
  length [1; 1; 1e-20] = 3%nat
  /\ negligible 1e-20 = true
  /\ forall rng : RNG float, exists m, ComputeRandom 3 2 [1; 1; 1e-20] rng = Ok m.
Proof.
  split; [reflexivity|]. split; [reflexivity|].
  intros rng. unfold ComputeRandom. cbn -[orthonormalize fill].
  pose proof (orthonormalize_shaped 3 2 (fill 3 2 rng) 2
                (fill_shaped 3 2 rng) (le_n 2)) as [Hlen Hall].
  destruct (orthonormalize 2 (fill 3 2 rng)) as [|r0 [|r1 [|r2 m]]];
    try discriminate Hlen.
  inversion Hall as [|? ? H0 Hall']; subst. inversion Hall' as [|? ? H1 _]; subst.
  cbn [scale_rows].
  rewrite !scale_row_run by (intros ->; discriminate).
  cbn. eexists. reflexivity.
Qed.

(** X2 on the draws 2, 0, 1, 1 and no scale vector. *)
Lemma ComputeRandom_shape_witness :
  exists m,
    ComputeRandom 2 2 [] (drawing 0 [2; 0; 1; 1]) = Ok m
    /\ shaped 2 2 m
    /\ ((0 < 2)%nat -> nth 0 m [] = map (drawing 0 [2; 0; 1; 1]) (seq 0 2)).
Proof.
  apply (ComputeRandom_shape 2 2 [] (drawing 0 [2; 0; 1; 1])).
  simpl. lia.
Defined.

(** C4 on the matrix ((1,2),(3,4)): in binary64 on the source (1,1) and
    a destination of three entries, in exact arithmetic on the sources
    (1,1) and (0,1) and the factors 2 and 3. *)
Lemma project_dot_products_witness :
  (exists out,
      project [[1; 2]; [3; 4]] [1; 1] [9; 9; 9] = Ok out
      /\ length out = length [9; 9; 9]
      /\ (forall i, (i < 2)%nat ->
            nth_error out i = Some (dot_product [1; 1] (nth i [[1; 2]; [3; 4]] [])))
      /\ (forall i, (2 <= i)%nat -> nth_error out i = nth_error [9; 9; 9] i))
  /\ (exists px py pxy,
         project [[1; 2]; [3; 4]]%R [1; 1]%R [9; 9; 9]%R = Ok px
         /\ project [[1; 2]; [3; 4]]%R [0; 1]%R [9; 9; 9]%R = Ok py
         /\ project [[1; 2]; [3; 4]]%R (combine 2 [1; 1]%R 3 [0; 1]%R) [9; 9; 9]%R = Ok pxy
         /\ forall i, (i < 2)%nat ->
              nth i pxy 0%R = (2 * nth i px 0 + 3 * nth i py 0)%R).
Proof.
  split.
  - apply (proj1 project_dot_products float float_Scalar [[1; 2]; [3; 4]] [1; 1] [9; 9; 9]).
    + repeat constructor.
    + simpl. lia.
  - apply (proj2 project_dot_products [[1; 2]; [3; 4]]%R [1; 1]%R [0; 1]%R [9; 9; 9]%R
             2%R 3%R).
    + repeat constructor.
    + reflexivity.
    + simpl. lia.
Defined.

(** Counterexample to C4 as stated: in binary64 [project] is not linear.
    With the row (1,-1,1), [x] = (1e16, 0, 1) and [y] = (0, 1e16, 0), the
    sum [x + y] is exact, [project] maps it to 1, and [x] and [y] to 1e16
    and -1e16, whose sum is 0.  With the row (1,-1) and [x] = (1e308,
    1e308), [project] maps [x] to 0 and [2 x] to NaN. *)
Lemma project_not_linear :
  (map2 PrimFloat.add [1e16; 0; 1] [0; 1e16; 0] = [1e16; 1e16; 1]
   /\ project [[1; -1; 1]] [1e16; 0; 1] [0] = Ok [1e16]
   /\ project [[1; -1; 1]] [0; 1e16; 0] [0] = Ok [-1e16]
   /\ project [[1; -1; 1]] [1e16; 1e16; 1] [0] = Ok [1]
   /\ within 1e-9 1 (1e16 + -1e16) = false)
  /\ (project [[1; -1]] [1e308; 1e308] [0] = Ok [0]
      /\ project [[1; -1]] (map (PrimFloat.mul 2) [1e308; 1e308]) [0] = Ok [nan]
      /\ within 1e-9 nan (2 * 0) = false).
Proof. vm_compute. repeat split. Qed.

End MatrixRuns.

(* ================================================================== *)
(** * Runs of the evaluator *)
(* ================================================================== *)

Section EvaluatorRuns.
Import ProjectionEvaluator Extent Examples.
Local Open Scope float_scope.

(** Counterexample to C1 as stated: the evaluator is configured and the
    projection has the right length, the floor of the quotient is
    10000000000, which no [int] holds, and no coordinates are returned. *)
Lemma computeCoordinates_out_of_range :
  length (cellDimensions_ (fresh [1])) = getDimension (diagonal 1)
  /\ length [1e10] = getDimension (diagonal 1)
  /\ float_floor (1e10 / 1) = Some 10000000000%Z
  /\ computeCoordinates (diagonal 1) [1e10] (fresh [1]) = Undefined.
Proof. vm_compute. auto. Qed.

(** C1 with cell width 1.0 on the values -0.5, 0.0, 0.99, 1.0, 1.01. *)
Lemma computeCoordinates_floor_witness :
  exists coord,
    computeCoordinates (diagonal 5) [-0.5; 0; 0.99; 1; 1.01] (fresh [1; 1; 1; 1; 1])
    = Ok coord
    /\ length coord = 5%nat
    /\ (forall i, (i < 5)%nat ->
          let q := nth i [-0.5; 0; 0.99; 1; 1.01] 0 / nth i [1; 1; 1; 1; 1] 0 in
          let n := nth i coord 0%Z in
          float_floor q = Some n
          /\ (inject_Z n <= SF2Q (Prim2SF q))%Q
          /\ (SF2Q (Prim2SF q) < inject_Z (n + 1))%Q)
    /\ map (fun x => float_int_floor (x / 1)) [-0.5; 0; 0.99; 1; 1.01]
       = [Some (-1)%Z; Some 0%Z; Some 0%Z; Some 1%Z; Some 1%Z].
Proof.
  apply (computeCoordinates_floor nat (diagonal 5) [-0.5; 0; 0.99; 1; 1.01]
           (fresh [1; 1; 1; 1; 1])).
  - reflexivity.
  - reflexivity.
  - intros i Hi.
    destruct i as [|[|[|[|[|i]]]]];
      [exists (-1)%Z | exists 0%Z | exists 0%Z | exists 1%Z | exists 1%Z | simpl in Hi; lia];
      (split; [vm_compute; reflexivity | unfold INT_MIN, INT_MAX; lia]).
Defined.

(** The same run, evaluated. *)
Example computeCoordinates_unit_cells :
  computeCoordinates (diagonal 5) [-0.5; 0; 0.99; 1; 1.01] (fresh [1; 1; 1; 1; 1])
  = Ok [-1; 0; 0; 1; 1]%Z.
Proof. vm_compute. reflexivity. Qed.

(** The running extremes of 3, 1, 2, as [inferCellDimensions] compares. *)
Example running_extremes :
  running_min [3; 1; 2] = 1 /\ running_max [3; 1; 2] = 3.
Proof. vm_compute. auto. Qed.

Lemma plane_conforming : conforming plane.
Proof. intros k. reflexivity. Defined.

(** C5 on four samples 0, 1, 2, 3 of the line, projected to the plane:
    axis 0 has the extent 3 - 0 and the width 3/20; axis 1 is constant. *)
Lemma inferCellDimensions_extents_witness :
  exists w',
    inferCellDimensions magic4 plane (fresh []) = (Ok tt, w')
    /\ sampled w' = 4%nat
    /\ cellDimensions_ w' = [3 / 20; 1].
Proof.
  destruct (inferCellDimensions_extents nat magic4 plane (fresh []) plane_conforming)
    as [Hpos _].
  destruct Hpos as (w' & Hrun & Hsampled & Hlen & Hcells); [simpl; lia|].
  exists w'. split; [exact Hrun|]. split; [exact Hsampled|].
  pose proof (Hcells 0%nat ltac:(simpl; lia)) as H0.
  pose proof (Hcells 1%nat ltac:(simpl; lia)) as H1.
  destruct (cellDimensions_ w') as [|a [|b [|c cells]]]; try discriminate Hlen.
  vm_compute in H0, H1. injection H0 as ->. injection H1 as ->.
  vm_compute. reflexivity.
Defined.

(** C6 on the same run: axis 1, where every sample projects to 3.5. *)
Lemma inferCellDimensions_degenerate_witness :
  exists w',
    inferCellDimensions magic4 plane (fresh []) = (Ok tt, w')
    /\ nth_error (cellDimensions_ w') 1 = Some 1
    /\ warnings_for 1 (console w') = 1%nat.
Proof.
  destruct (inferCellDimensions_degenerate nat magic4 plane (fresh []) 1 plane_conforming)
    as (w' & Hrun & Hdeg & _ & Hflat).
  - simpl. lia.
  - exists w'. split; [exact Hrun|].
    apply Hdeg. apply (Hflat 3.5).
    + reflexivity.
    + simpl. lia.
    + reflexivity.
    + intros k _. reflexivity.
Defined.

(** Counterexample to C6 as stated: every sampled state projects to the
    same value on axis 0, [+infinity]; the width [(inf - inf) / 20] is
    NaN, which is not below epsilon, and NaN is stored without a
    warning. *)
Lemma inferCellDimensions_infinite_samples :
  (forall k, nth_error (project skyward (sampleUniform (manifold_ skyward) k)) 0
             = Some infinity)
  /\ inferCellDimensions magic4 skyward (fresh [])
     = (Ok tt, {| cellDimensions_ := [nan]; sampled := 4; console := [] |}).
Proof. split; [intros k|]; vm_compute; reflexivity. Qed.

(** C7 on evaluators of the plane: one that stores nothing yet, on which
    [setup] infers, and then does so no more; one configured by
    [setCellDimensions]; one on which [setCellDimensions] threw; and one
    that stores three cell dimensions. *)
Lemma setup_idempotent_witness :
  (exists w',
      setup magic4 plane (fresh []) = (Ok tt, w')
      /\ sampled w' = 4%nat
      /\ length (cellDimensions_ w') = 2%nat
      /\ setup magic4 plane w' = (Ok tt, w'))
  /\ setup magic4 plane (snd (setCellDimensions plane [7; 8] (fresh [])))
     = (Ok tt, snd (setCellDimensions plane [7; 8] (fresh [])))
  /\ snd (setup magic4 plane (snd (setCellDimensions plane [1; 2; 3] (fresh []))))
     = snd (setCellDimensions plane [1; 2; 3] (fresh []))
  /\ (setup magic4 plane (fresh [5; 6; 7]) = checkCellDimensions plane (fresh [5; 6; 7])
      /\ snd (setup magic4 plane (fresh [5; 6; 7])) = fresh [5; 6; 7]).
Proof.
  destruct (setup_idempotent nat magic4 plane (fresh []) plane_conforming)
    as (_ & Hinfer & _ & Hagain & Hset & Hthrown).
  destruct (setup_idempotent nat magic4 plane (fresh [5; 6; 7]) plane_conforming)
    as (_ & _ & Hstored & _).
  split; [|split; [|split]].
  - destruct Hinfer as (w' & Hrun & Hsampled & Hlen & _); [reflexivity | simpl; lia |].
    exists w'. split; [exact Hrun|]. split; [exact Hsampled|]. split; [exact Hlen|].
    apply Hagain. exact Hrun.
  - apply (Hset [7; 8]). vm_compute. reflexivity.
  - apply Hthrown. discriminate.
  - apply Hstored. left. discriminate.
Defined.

(** The two calls of [setup], evaluated: the second one changes nothing. *)
Example setup_twice :
  setup magic4 plane (fresh [])
  = (Ok tt, {| cellDimensions_ := [3 / 20; 1]; sampled := 4;
               console := [(1%nat, "line"%string)] |})
  /\ setup magic4 plane (snd (setup magic4 plane (fresh [])))
     = setup magic4 plane (fresh []).
Proof. vm_compute. auto. Qed.

(** C8 on three cell dimensions for the plane. *)
Lemma checkCellDimensions_throws_witness :
  failed (fst (setCellDimensions plane [1; 2; 3] (fresh [])))
  /\ fst (checkCellDimensions plane (fresh [1; 2; 3])) = Throw CellDimensionMismatch.
Proof.
  destruct (checkCellDimensions_throws nat magic4 plane (fresh [1; 2; 3]) [1; 2; 3]
              plane_conforming) as (_ & Hmis & _ & _ & _ & _ & Hset).
  split.
  - apply Hset. simpl. lia.
  - apply Hmis. simpl. split; lia.
Defined.

(** Counterexample to C9 as stated.  [setCellDimensions] with two cell
    dimensions throws on an evaluator of dimension 1 and leaves them
    stored; [computeCoordinates] then returns coordinates.  On an evaluator
    that stores no cell dimension it reads past the end of the empty
    vector, and throws nothing either. *)
Lemma computeCoordinates_unconfigured :
  (failed (fst (setCellDimensions (diagonal 1) [1; 2] (fresh [])))
   /\ length (cellDimensions_ (snd (setCellDimensions (diagonal 1) [1; 2] (fresh []))))
      <> getDimension (diagonal 1)
   /\ computeCoordinates (diagonal 1) [0.5]
        (snd (setCellDimensions (diagonal 1) [1; 2] (fresh []))) = Ok [0%Z])
  /\ computeCoordinates (diagonal 1) [0.5] (fresh []) = Undefined.
Proof.
  repeat split.
  - now exists CellDimensionMismatch.
  - simpl. lia.
Qed.

(** C9, as amended, on an evaluator of dimension 2 that stores one cell
    dimension. *)
Lemma computeCoordinates_unchecked_witness :
  (forall e, computeCoordinates (diagonal 2) [0.5; 0.5] (fresh [1]) <> Throw e)
  /\ computeCoordinates (diagonal 2) [0.5; 0.5] (fresh [1]) = Undefined.
Proof.
  destruct (computeCoordinates_unchecked nat (diagonal 2) [0.5; 0.5] (fresh [1]))
    as (Hthrow & Hshort & _).
  split; [exact Hthrow|]. apply Hshort. simpl. lia.
Defined.

(** C10 on three cell dimensions for the plane, replacing two stored
    ones. *)
Lemma setCellDimensions_stores_first_witness :
  failed (fst (setCellDimensions plane [1; 2; 3] (fresh [5; 6])))
  /\ cellDimensions_ (snd (setCellDimensions plane [1; 2; 3] (fresh [5; 6]))) = [1; 2; 3].
Proof.
  apply (setCellDimensions_stores_first nat plane [1; 2; 3] (fresh [5; 6])).
  right. simpl. lia.
Defined.

End EvaluatorRuns.

(* ================================================================== *)
(** * More on the matrix builder *)
(* ================================================================== *)

Section ScalingOutcomes.
Import ProjectionMatrix ProjectionMatrixMembers.
Context {F : Type} {SF : Scalar F}.

Lemma row_nonempty (from : nat) (row : Row F) :
  0 < from -> length row = from -> row <> [].
Proof. intros Hf Hl ->. simpl in Hl. lia. Qed.

(** The scaling loops return when every entry of [scale] that they index
    is there and significant, and then each row is divided by its entry. *)
Lemma scale_rows_returns (scale : list F) (from : nat) (rows : Matrix F) :
  0 < from ->
  Forall (fun row => length row = from) rows ->
  forall i,
    i + length rows <= length scale ->
    (forall k, k < length rows -> negligible (nth (i + k) scale fzero) = false) ->
    scale_rows scale i rows = Ok (rows_divided scale i rows).
Proof.
  intros Hfrom Hall. induction Hall as [|row rows Hrow Hall IH]; intros i Hlen Hsig.
  - reflexivity.
  - cbn [scale_rows rows_divided length] in *.
    rewrite scale_row_run by now apply (row_nonempty from).
    rewrite (nth_error_nth' scale fzero) by lia.
    specialize (Hsig 0 ltac:(lia)) as H0. rewrite Nat.add_0_r in H0. rewrite H0.
    cbn [obind]. rewrite IH; [reflexivity | lia |].
    intros k Hk. specialize (Hsig (S k) ltac:(lia)).
    now replace (S i + k) with (i + S k) by lia.
Qed.

(** They read past the end of [scale] exactly when there are more rows
    than entries left, and every entry left is significant. *)
Lemma scale_rows_undefined (scale : list F) (from : nat) (rows : Matrix F) :
  0 < from ->
  Forall (fun row => length row = from) rows ->
  forall i,
    i <= length scale ->
    (scale_rows scale i rows = Undefined
     <-> length scale < i + length rows
         /\ (forall j, i <= j < length scale -> negligible (nth j scale fzero) = false)).
Proof.
  intros Hfrom Hall. induction Hall as [|row rows Hrow Hall IH]; intros i Hile.
  - simpl. split; [discriminate|]. intros [H _]. lia.
  - cbn [scale_rows length].
    rewrite scale_row_run by now apply (row_nonempty from).
    destruct (nth_error scale i) as [s|] eqn:Es.
    + assert (Hi : i < length scale) by (apply nth_error_Some; congruence).
      assert (Hs : nth i scale fzero = s) by now apply nth_error_nth.
      destruct (negligible s) eqn:Eb; cbn [obind].
      * split; [discriminate|]. intros [_ H]. specialize (H i ltac:(lia)). congruence.
      * specialize (IH (S i) ltac:(lia)).
        destruct (scale_rows scale (S i) rows) as [rest|e|]; cbn [obind].
        -- split; [discriminate|]. intros [Hlen Hsig].
           assert (H : @Ok (Matrix F) rest = Undefined); [|discriminate].
           apply IH. split; [lia|]. intros j Hj. apply Hsig. lia.
        -- split; [discriminate|]. intros [Hlen Hsig].
           assert (H : @Throw (Matrix F) e = Undefined); [|discriminate].
           apply IH. split; [lia|]. intros j Hj. apply Hsig. lia.
        -- split; auto. intros _. destruct IH as [IH _].
           destruct (IH eq_refl) as [Hlen Hsig]. split; [lia|].
           intros j Hj. destruct (Nat.eq_dec j i) as [->|Hne]; [congruence|].
           apply Hsig. lia.
    + apply nth_error_None in Es. cbn [obind]. split; auto. intros _.
      split; [lia|]. intros j Hj. lia.
Qed.

Lemma orthonormalized_shaped (from to : nat) (rng : RNG F) :
  shaped from to (orthonormalize to (fill from to rng)).
Proof. apply orthonormalize_shaped; [apply fill_shaped | lia]. Qed.

Lemma ComputeRandom_unscaled_run (from to : nat) (rng : RNG F) :
  ComputeRandom_unscaled from to rng = Ok (orthonormalize to (fill from to rng)).
Proof.
  unfold ComputeRandom_unscaled, ComputeRandom. cbn [length].
  destruct from as [|from]; [|reflexivity].
  cbn [Nat.eqb]. apply scale_rows_empty. apply orthonormalized_shaped.
Qed.

(** X3. [ComputeRandom(from, to)], the overload without a scale vector,
    always returns: a matrix of [to] rows of [from] entries, also when
    [from] is 0 and the empty vector passes for a scale vector of the
    right size. *)
Theorem ComputeRandom_unscaled_returns (from to : nat) (rng : RNG F) :
  exists m,
    ComputeRandom_unscaled from to rng = Ok m
    /\ shaped from to m
    /\ m = orthonormalize to (fill from to rng).
Proof.
  exists (orthonormalize to (fill from to rng)).
  split; [|split]; auto using ComputeRandom_unscaled_run, orthonormalized_shaped.
Qed.

(** X4. [ComputeRandom] reads past the end of the scale vector exactly
    when the vector has [from] entries, [from] is positive, there are more
    rows than that ([from < to]) and no entry of the vector is below
    epsilon in magnitude. *)
Theorem ComputeRandom_undefined (from to : nat) (scale : list F) (rng : RNG F) :
  ComputeRandom from to scale rng = Undefined
  <-> length scale = from /\ 0 < from /\ from < to
      /\ forall j, j < from -> negligible (nth j scale fzero) = false.
Proof.
  unfold ComputeRandom.
  pose proof (orthonormalized_shaped from to rng) as [Hlen Hall].
  destruct (length scale =? from) eqn:E.
  - apply Nat.eqb_eq in E. destruct from as [|from].
    + rewrite scale_rows_empty by assumption. split; [discriminate|].
      intros (_ & H & _). lia.
    + rewrite (scale_rows_undefined scale (S from)) by (auto; lia).
      rewrite Hlen, E. cbn [plus]. split.
      * intros [Hlt Hsig]. repeat split; auto; try lia. intros j Hj. apply Hsig. lia.
      * intros (_ & _ & Hlt & Hsig). split; [lia|]. intros j Hj. apply Hsig. lia.
  - apply Nat.eqb_neq in E. split; [discriminate|]. intros (H & _). contradiction.
Qed.

Lemma rows_divided_length (scale : list F) (rows : Matrix F) :
  forall i, length (rows_divided scale i rows) = length rows.
Proof.
  induction rows as [|row rows IH]; intros i; simpl; auto.
Qed.

Lemma nth_rows_divided (scale : list F) (rows : Matrix F) :
  forall i k, k < length rows ->
    nth k (rows_divided scale i rows) []
    = map (fun x => fdiv x (nth (i + k) scale fzero)) (nth k rows []).
Proof.
  induction rows as [|row rows IH]; intros i [|k] Hk; simpl in *; try lia.
  - now rewrite Nat.add_0_r.
  - rewrite IH by lia. now replace (S i + k) with (i + S k) by lia.
Qed.

Lemma ComputeRandom_scaled_run (from to : nat) (scale : list F) (rng : RNG F) :
  length scale = from -> 0 < from -> to <= from ->
  all_significant scale to ->
  ComputeRandom from to scale rng
  = Ok (rows_divided scale 0 (orthonormalize to (fill from to rng))).
Proof.
  intros Hscale Hfrom Hto Hsig.
  pose proof (orthonormalized_shaped from to rng) as [Hlen Hall].
  unfold ComputeRandom.
  replace (length scale =? from) with true by (symmetry; now apply Nat.eqb_eq).
  apply (scale_rows_returns scale from); auto; [lia|].
  intros k Hk. apply Hsig; simpl; lia.
Qed.

(** X5. When the scale vector has [from] entries, [from] is positive,
    there are at most [from] rows and none of the first [to] entries is
    below epsilon in magnitude, [ComputeRandom] returns the orthonormalised
    matrix with every entry of row [i] divided by [scale[i]]: the factor
    goes with the row, not with the column. *)
Theorem ComputeRandom_scaled (from to : nat) (scale : list F) (rng : RNG F) :
  length scale = from -> 0 < from -> to <= from ->
  all_significant scale to ->
  exists m,
    ComputeRandom from to scale rng = Ok m
    /\ shaped from to m
    /\ forall i j, i < to -> j < from ->
         nth j (nth i m []) fzero
         = fdiv (nth j (nth i (orthonormalize to (fill from to rng)) []) fzero)
                (nth i scale fzero).
Proof.
  intros Hscale Hfrom Hto Hsig.
  pose proof (orthonormalized_shaped from to rng) as Hsh.
  set (m0 := orthonormalize to (fill from to rng)) in *.
  exists (rows_divided scale 0 m0).
  destruct Hsh as [Hlen Hall].
  pose proof (rows_divided_length scale m0 0) as Hl.
  pose proof (nth_rows_divided scale m0 0) as Hn.
  split; [|split].
  - now apply ComputeRandom_scaled_run.
  - split; [lia|]. apply Forall_forall. intros row Hin.
    destruct (In_nth _ _ [] Hin) as (k & Hk & <-).
    assert (Hk' : k < length m0) by (unfold Matrix, Row in *; congruence). clear Hk.
    rewrite Hn, length_map by assumption.
    rewrite Forall_forall in Hall. apply Hall, nth_In, Hk'.
  - intros i j Hi Hj. rewrite Hn by lia. cbn [plus].
    assert (Hrow : length (nth i m0 []) = from).
    { rewrite Forall_forall in Hall. apply Hall, nth_In. lia. }
    rewrite (nth_map_in _ _ j fzero) by lia. reflexivity.
Qed.

Lemma mapM_Ok_length {A B : Type} (f : A -> Outcome B) (l : list A) :
  forall l', mapM f l = Ok l' -> length l' = length l.
Proof.
  induction l as [|x l IH]; intros l' H; simpl in H.
  - now inversion H.
  - destruct (f x) as [y| |]; simpl in H; try discriminate.
    destruct (mapM f l) as [ys| |]; simpl in H; try discriminate.
    inversion H; subst. simpl. f_equal. now apply IH.
Qed.

Lemma scale_rows_shaped (scale : list F) (from : nat) (rows : Matrix F) :
  Forall (fun row : Row F => length row = from) rows ->
  forall (i : nat) (rows' : Matrix F),
    scale_rows scale i rows = Ok rows' ->
    length rows' = length rows
    /\ Forall (fun row : Row F => length row = from) rows'.
Proof.
  intros Hall. induction Hall as [|row rows Hrow Hall IH]; intros i rows' H; simpl in H.
  - inversion H; subst. auto.
  - destruct (scale_row scale i row) as [row'| |] eqn:Er; simpl in H; try discriminate.
    destruct (scale_rows scale (S i) rows) as [rest| |] eqn:Es; simpl in H;
      try discriminate.
    inversion H; subst. destruct (IH (S i) rest Es) as [Hl Hf].
    split; [simpl; now f_equal|]. constructor; auto.
    apply mapM_Ok_length in Er. congruence.
Qed.

(** Whatever [ComputeRandom] returns has [to] rows of [from] entries. *)
Lemma ComputeRandom_returns_shaped (from to : nat) (scale : list F) (rng : RNG F)
      (m : Matrix F) :
  ComputeRandom from to scale rng = Ok m -> shaped from to m.
Proof.
  unfold ComputeRandom. intros H.
  destruct (orthonormalized_shaped from to rng) as [Hlen Hall].
  destruct (length scale =? from).
  - destruct (scale_rows_shaped scale from _ Hall 0 m H) as [Hl Hf].
    split; [congruence | assumption].
  - inversion H; subst. now split.
Qed.

End ScalingOutcomes.

(* ================================================================== *)
(** * More on project *)
(* ================================================================== *)

Section ProjectBounds.
Import ProjectionMatrix ProjectionMatrixMembers.
Context {F : Type} {SF : Scalar F}.

Lemma accumulate_short (vec : Row F) :
  forall (from : list F) (pos : F),
    length vec <= length from ->
    accumulate from vec pos = Ok (fold_left fadd (map2 fmul from vec) pos).
Proof.
  induction vec as [|v vec IH]; intros [|x from] pos H; simpl in *; try lia; auto.
  apply IH. lia.
Qed.

Lemma accumulate_long (vec : Row F) :
  forall (from : list F) (pos : F),
    length from < length vec -> accumulate from vec pos = Undefined.
Proof.
  induction vec as [|v vec IH]; intros [|x from] pos H; simpl in *; try lia; auto.
  apply IH. lia.
Qed.

Lemma project_rows_fitting (from : list F) (mat : Matrix F) :
  forall (i : nat) (to : list F),
    Forall (fun vec : Row F => length vec <= length from) mat ->
    i + length mat <= length to ->
    project_rows mat from i to
    = Ok (firstn i to ++ map (dot_product from) mat ++ skipn (i + length mat) to).
Proof.
  induction mat as [|vec mat IH]; intros i to Hall Hto; simpl in *.
  - now rewrite Nat.add_0_r, firstn_skipn.
  - inversion Hall as [|? ? Hvec Hmat]; subst.
    replace (i <? length to) with true by (symmetry; apply Nat.ltb_lt; lia).
    rewrite accumulate_short by assumption. simpl.
    rewrite IH; auto; [|rewrite update_length; lia].
    f_equal.
    rewrite firstn_update_succ by lia.
    rewrite skipn_update_succ by lia.
    rewrite <- app_assoc. simpl.
    now rewrite Nat.add_succ_r.
Qed.

Lemma project_rows_unfitting (from : list F) (mat : Matrix F) :
  forall (i : nat) (to : list F),
    i <= length to ->
    ~ (i + length mat <= length to
       /\ Forall (fun vec : Row F => length vec <= length from) mat) ->
    project_rows mat from i to = Undefined.
Proof.
  induction mat as [|vec mat IH]; intros i to Hi Hno; simpl in *.
  - exfalso. apply Hno. split; [lia | constructor].
  - destruct (i <? length to) eqn:Ei; auto. apply Nat.ltb_lt in Ei.
    destruct (le_lt_dec (length vec) (length from)) as [Hv|Hv].
    + rewrite accumulate_short by assumption. simpl. apply IH.
      * rewrite update_length. lia.
      * rewrite update_length. intros [Hlen Hall]. apply Hno. split; [lia|].
        now constructor.
    + now rewrite accumulate_long.
Qed.

(** X7. [project] never throws.  It returns exactly when the destination
    has room for one value per row and no row is longer than the source;
    otherwise it reads past the end of the source or writes past the end
    of the destination. *)
Theorem project_bounds (mat : Matrix F) (from to : list F) :
  (forall e, project mat from to <> Throw e)
  /\ ((exists out, project mat from to = Ok out) <-> fitting mat from to)
  /\ (project mat from to = Undefined <-> ~ fitting mat from to).
Proof.
  unfold project, fitting.
  assert (Hdec : (length mat <= length to
                  /\ Forall (fun vec : Row F => length vec <= length from) mat)
                 \/ ~ (length mat <= length to
                       /\ Forall (fun vec : Row F => length vec <= length from) mat)).
  { destruct (le_lt_dec (length mat) (length to)) as [Hl|Hl]; [|right; intros [H _]; lia].
    destruct (Forall_dec (fun vec : Row F => length vec <= length from)
                (fun vec => le_dec (length vec) (length from)) mat) as [Hf|Hf];
      [left | right]; tauto. }
  destruct Hdec as [[Hl Hf]|Hno].
  - rewrite project_rows_fitting by (auto; simpl; lia).
    split; [discriminate|]. split; split; try discriminate; eauto.
    intros H. exfalso. apply H. now split.
  - rewrite project_rows_unfitting by (simpl; (lia || exact Hno)).
    split; [discriminate|]. split; split; auto; try tauto.
    intros [out H]. discriminate.
Qed.

Lemma dot_app_l (from extra : list F) (vec : Row F) :
  length vec <= length from -> dot_product (from ++ extra) vec = dot_product from vec.
Proof.
  intros H. unfold dot_product. f_equal. revert vec H.
  induction from as [|x from IH]; intros [|v vec] H; simpl in *; try lia; auto.
  - now destruct extra.
  - f_equal. apply IH. lia.
Qed.

(** X8. [project] reads no more of the source than the rows are long:
    entries of the source beyond the length of every row do not change
    what it does. *)
Theorem project_source_prefix (mat : Matrix F) (from extra to : list F) :
  Forall (fun vec : Row F => length vec <= length from) mat ->
  project mat (from ++ extra) to = project mat from to.
Proof.
  intros Hall.
  destruct (le_lt_dec (length mat) (length to)) as [Hl|Hl].
  - unfold project. rewrite !project_rows_fitting; auto; try (simpl; lia).
    + f_equal. f_equal. f_equal. apply map_ext_in. intros vec Hin.
      apply dot_app_l. rewrite Forall_forall in Hall. now apply Hall.
    + eapply Forall_impl; [|exact Hall]. intros vec Hv. cbn beta in Hv.
      rewrite length_app. lia.
  - unfold project. rewrite !project_rows_unfitting; auto; try lia; intros [H _]; simpl in H; lia.
Qed.

Lemma project_shaped (from to : nat) (m : Matrix F) (source dest : list F) :
  shaped from to m -> length source = from -> to <= length dest ->
  exists out,
    project m source dest = Ok out
    /\ length out = length dest
    /\ skipn to out = skipn to dest.
Proof.
  intros [Hlen Hall] Hs Hd.
  assert (Hfit : Forall (fun vec : Row F => length vec <= length source) m).
  { eapply Forall_impl; [|exact Hall]. intros vec Hv. cbn beta in Hv. lia. }
  unfold project. rewrite project_rows_fitting by (auto; simpl; lia).
  eexists. split; [reflexivity|]. cbn [plus firstn app]. split.
  - rewrite length_app, length_map, length_skipn. lia.
  - rewrite skipn_app, length_map, Hlen.
    rewrite (skipn_all2 (map _ m)) by (rewrite length_map; lia).
    now rewrite Nat.sub_diag.
Qed.

(** X9. [computeRandom], then [project].  A [computeRandom] that throws
    leaves the object with the matrix it had.  After a [computeRandom]
    that returns, with a scale vector or without, [project] returns for
    every source of [from] entries and every destination with room for
    [to] values, and changes the first [to] entries of the destination
    only; and [computeRandom(from, to)], without scale vector, always
    returns. *)
Theorem computeRandom_then_project (from to : nat) (scale : list F) (rng : RNG F)
        (mat : Matrix F) (source dest : list F) :
  (failed (fst (computeRandom from to scale rng mat)) ->
   snd (computeRandom from to scale rng mat) = mat)
  /\ (length source = from -> to <= length dest ->
      (fst (computeRandom from to scale rng mat) = Ok tt ->
       exists out,
         project (snd (computeRandom from to scale rng mat)) source dest = Ok out
         /\ length out = length dest
         /\ skipn to out = skipn to dest)
      /\ fst (computeRandom_unscaled from to rng mat) = Ok tt
      /\ exists out,
           project (snd (computeRandom_unscaled from to rng mat)) source dest = Ok out
           /\ length out = length dest
           /\ skipn to out = skipn to dest).
Proof.
  split; [|intros Hs Hd; split; [|split]].
  - unfold computeRandom. intros [e He].
    destruct (ComputeRandom from to scale rng); simpl in *; auto; discriminate.
  - unfold computeRandom.
    destruct (ComputeRandom from to scale rng) as [m| |] eqn:E; simpl;
      try discriminate.
    intros _. apply (project_shaped from to); auto.
    now apply (ComputeRandom_returns_shaped from to scale rng).
  - unfold computeRandom_unscaled. now rewrite ComputeRandom_unscaled_run.
  - unfold computeRandom_unscaled. rewrite ComputeRandom_unscaled_run. cbn [snd].
    apply (project_shaped from to); auto. apply orthonormalized_shaped.
Qed.

End ProjectBounds.

(* ================================================================== *)
(** * More on the evaluator *)
(* ================================================================== *)

Section MapMResults.
Context {A B : Type}.
Variable f : A -> Outcome B.

Lemma mapM_Ok_iff (d : A) (d' : B) (l : list A) :
  forall ys,
    mapM f l = Ok ys
    <-> length ys = length l
        /\ forall k, k < length l -> f (nth k l d) = Ok (nth k ys d').
Proof.
  induction l as [|x l IH]; intros ys; simpl.
  - split.
    + intros [= <-]. split; auto. intros k Hk. lia.
    + intros [Hl _]. destruct ys; [reflexivity | discriminate].
  - destruct (f x) as [y| |] eqn:Ex; simpl.
    + destruct (mapM f l) as [ys'| |] eqn:El; simpl.
      * split.
        -- intros [= <-]. destruct (proj1 (IH ys') eq_refl) as [Hl Hn].
           split; [simpl; lia|]. intros [|k] Hk; simpl; auto. apply Hn. lia.
        -- intros [Hl Hn]. destruct ys as [|y0 ys]; [discriminate|].
           pose proof (Hn 0 ltac:(lia)) as H0. simpl in H0.
           rewrite Ex in H0. injection H0 as ->.
           assert (H : @Ok (list B) ys' = Ok ys); [|congruence].
           apply IH. split; [simpl in Hl; lia|].
           intros k Hk. apply (Hn (S k)). lia.
      * split; [discriminate|]. intros [Hl Hn].
        destruct ys as [|y0 ys]; [discriminate|].
        assert (H : @Throw (list B) e = Ok ys); [|discriminate].
        apply IH. split; [simpl in Hl; lia|]. intros k Hk. apply (Hn (S k)). lia.
      * split; [discriminate|]. intros [Hl Hn].
        destruct ys as [|y0 ys]; [discriminate|].
        assert (H : @Undefined (list B) = Ok ys); [|discriminate].
        apply IH. split; [simpl in Hl; lia|]. intros k Hk. apply (Hn (S k)). lia.
    + split; [discriminate|]. intros [_ Hn].
      specialize (Hn 0 ltac:(lia)). simpl in Hn. congruence.
    + split; [discriminate|]. intros [_ Hn].
      specialize (Hn 0 ltac:(lia)). simpl in Hn. congruence.
Qed.

End MapMResults.

Section EvaluatorMore.
Import ProjectionEvaluator Extent.
Context {F : Type} {DF : Double F}.
Variable State : Type.
Variable magic : Magic F.
Variable P : Projection F State.

(** X12. A [setup] that does not return has changed nothing: it throws
    only where no inference takes place (dimension 0, or a stored vector
    that is not empty), so that, unlike [setCellDimensions], it leaves the
    evaluator as it found it; and it has no undefined behaviour. *)
Theorem setup_failure_keeps (w : World F) :
  conforming P ->
  (fst (setup magic P w) <> Ok tt -> snd (setup magic P w) = w)
  /\ fst (setup magic P w) <> Undefined.
Proof.
  intros HP. rewrite setup_run by assumption.
  destruct ((length (cellDimensions_ w) =? 0) && (0 <? getDimension P)) eqn:E.
  - apply andb_true_iff in E as [_ Ed]. apply Nat.ltb_lt in Ed.
    rewrite checkCellDimensions_run. cbn [fst snd].
    replace (getDimension P =? 0) with false by (symmetry; apply Nat.eqb_neq; lia).
    rewrite inferred_length, Nat.eqb_refl. split; [|discriminate].
    intros H. now destruct H.
  - rewrite checkCellDimensions_run. cbn [fst snd]. split; auto.
    destruct (getDimension P =? 0); [discriminate|].
    destruct (length (cellDimensions_ w) =? getDimension P); discriminate.
Qed.

(** X13. [inferCellDimensions] overwrites what is stored: the cell
    dimensions it leaves do not depend on the ones it finds, so that after
    [setCellDimensions(v)] it leaves the same ones as without that call. *)
Theorem inferCellDimensions_overwrites (v : list F) (w : World F) :
  conforming P -> 0 < getDimension P ->
  cellDimensions_ (snd (inferCellDimensions magic P (snd (setCellDimensions P v w))))
  = cellDimensions_ (snd (inferCellDimensions magic P w))
  /\ fst (inferCellDimensions magic P (snd (setCellDimensions P v w))) = Ok tt.
Proof.
  intros HP Hd.
  rewrite !inferCellDimensions_run by assumption.
  rewrite setCellDimensions_run, checkCellDimensions_run. split; reflexivity.
Qed.

(** X17. [computeCoordinates] returns exactly when on every axis below
    the dimension there are a projected value [p] and a stored cell
    dimension [c] and [(int)floor(p / c)] is defined, and it then returns
    one coordinate per axis, these integers. *)
Theorem computeCoordinates_returns (projection : list F) (w : World F) (coord : list Z) :
  computeCoordinates P projection w = Ok coord
  <-> length coord = getDimension P
      /\ forall i, i < getDimension P ->
           exists p c,
             nth_error projection i = Some p
             /\ nth_error (cellDimensions_ w) i = Some c
             /\ int_floor (fdiv p c) = Some (nth i coord 0%Z).
Proof.
  unfold computeCoordinates.
  rewrite (mapM_Ok_iff _ 0 0%Z), length_seq.
  split; intros [Hl Hn]; split; auto; intros i Hi; specialize (Hn i Hi).
  - rewrite seq_nth in Hn by assumption. cbn [plus] in Hn. unfold coordinate in Hn.
    destruct (nth_error projection i) as [p|]; [|discriminate].
    destruct (nth_error (cellDimensions_ w) i) as [c|]; [|discriminate].
    exists p, c. destruct (int_floor (fdiv p c)); [|discriminate].
    injection Hn as ->. auto.
  - destruct Hn as (p & c & Hp & Hc & Hn).
    rewrite seq_nth by assumption. cbn [plus]. unfold coordinate.
    now rewrite Hp, Hc, Hn.
Qed.

End EvaluatorMore.

Section EvaluatorFloats.
Import ProjectionEvaluator Extent.
Local Open Scope float_scope.
Variable State : Type.
Variable magic : Magic float.
Variable P : Projection float State.

Lemma float_zero_degenerate (x : float) : float_zero x = true -> degenerate x = true.
Proof.
  unfold float_zero. intros H. destruct (Prim2SF x) as [s| | |] eqn:E; try discriminate.
  now apply (float_zero_below_epsilon x s).
Qed.

Lemma cell_width_significant (c : float) :
  degenerate (cell_width c) = false /\ float_zero (cell_width c) = false.
Proof.
  assert (H : degenerate (cell_width c) = false).
  { unfold cell_width. destruct (degenerate c) eqn:E; auto. }
  split; auto. destruct (float_zero (cell_width c)) eqn:Z; auto.
  apply float_zero_degenerate in Z. congruence.
Qed.

(** X14. The cell dimensions that [inferCellDimensions] stores are never
    below epsilon; in particular none of them is zero, and a
    [computeCoordinates] after it divides by zero on no axis. *)
Theorem inferCellDimensions_significant (w : World float) (j : nat) :
  conforming P -> j < getDimension P ->
  exists c,
    nth_error (cellDimensions_ (snd (inferCellDimensions magic P w))) j = Some c
    /\ (c <? 0x1p-52) = false
    /\ float_zero c = false.
Proof.
  intros HP Hj. rewrite inferCellDimensions_run by (auto; lia). cbn [snd].
  rewrite inferred_cell by assumption. eexists. split; [reflexivity|].
  apply cell_width_significant.
Qed.

Lemma float_div_by_zero (p z : float) :
  float_zero z = true -> float_int_floor (p / z) = None.
Proof.
  unfold float_zero, float_int_floor, float_floor. intros Hz. rewrite div_spec.
  destruct (Prim2SF z) as [sz| | |]; try discriminate.
  destruct (Prim2SF p) as [sp|sp| |sp mp ep]; reflexivity.
Qed.

(** X15. [setCellDimensions] validates the length only: it accepts a
    vector with a cell dimension of zero, and [computeCoordinates] then
    has undefined behaviour on every projection (the quotient on that
    axis is infinite or NaN). *)
Theorem zero_cell_dimension (v projection : list float) (w : World float) (i : nat) :
  length v = getDimension P -> i < getDimension P ->
  float_zero (nth i v 0) = true ->
  fst (setCellDimensions P v w) = Ok tt
  /\ computeCoordinates P projection (snd (setCellDimensions P v w)) = Undefined.
Proof.
  intros Hv Hi Hz. rewrite setCellDimensions_run, checkCellDimensions_run.
  cbn [fst snd cellDimensions_].
  replace (getDimension P =? 0)%nat with false by (symmetry; apply Nat.eqb_neq; lia).
  rewrite Hv, Nat.eqb_refl. split; auto.
  unfold computeCoordinates. cbn [cellDimensions_].
  apply mapM_undefined with (x := i).
  - intros k e. apply coordinate_never_throws.
  - apply in_seq. lia.
  - unfold coordinate. destruct (nth_error projection i) as [p|]; auto.
    rewrite (nth_error_nth' v 0) by lia.
    cbn [int_floor fdiv float_Double float_Scalar Double_Scalar].
    now rewrite float_div_by_zero.
Qed.

Lemma float_zero_div_divisor (p c : float) :
  float_zero p = true -> float_divisor c = true -> float_int_floor (p / c) = Some 0%Z.
Proof.
  unfold float_zero, float_divisor, float_int_floor, float_floor. intros Hp Hc.
  rewrite div_spec.
  destruct (Prim2SF p) as [sp| | |]; try discriminate.
  destruct (Prim2SF c) as [sc|sc| |sc mc ec]; try discriminate; reflexivity.
Qed.

Lemma map_const_seq {A : Type} (a : A) (count : nat) :
  forall first, map (fun _ => a) (seq first count) = repeat a count.
Proof.
  induction count as [|count IH]; intros first; simpl; auto. now rewrite IH.
Qed.

(** X16. The origin lies in cell 0: when every stored cell dimension is
    neither zero nor NaN (it may be negative or infinite), a projection of
    zeros gets the coordinate 0 on every axis. *)
Theorem origin_coordinates (projection : list float) (w : World float) :
  length projection = getDimension P ->
  length (cellDimensions_ w) = getDimension P ->
  Forall (fun p => float_zero p = true) projection ->
  Forall (fun c => float_divisor c = true) (cellDimensions_ w) ->
  computeCoordinates P projection w = Ok (repeat 0%Z (getDimension P)).
Proof.
  intros Hp Hc Hzero Hdiv. unfold computeCoordinates.
  rewrite <- (map_const_seq 0%Z (getDimension P) 0).
  apply mapM_ok. intros i Hi. apply in_seq in Hi.
  unfold coordinate.
  rewrite (nth_error_nth' projection 0), (nth_error_nth' (cellDimensions_ w) 0) by lia.
  cbn [int_floor fdiv float_Double float_Scalar Double_Scalar].
  rewrite float_zero_div_divisor; auto.
  - rewrite Forall_forall in Hzero. apply Hzero, nth_In. lia.
  - rewrite Forall_forall in Hdiv. apply Hdiv, nth_In. lia.
Qed.

End EvaluatorFloats.

(* ================================================================== *)
(** * The text that is printed *)
(* ================================================================== *)

Section Strings.
Local Open Scope string_scope.

Lemma append_nil_r (s : string) : s ++ "" = s.
Proof. induction s as [|a s IH]; simpl; congruence. Qed.

Lemma append_assoc (s t u : string) : (s ++ t) ++ u = s ++ t ++ u.
Proof. induction s as [|a s IH]; simpl; congruence. Qed.

Lemma concat_cons (x : string) (l : list string) :
  String.concat "" (x :: l) = x ++ String.concat "" l.
Proof.
  destruct l as [|y l]; [simpl; now rewrite append_nil_r | reflexivity].
Qed.

End Strings.

Section PrintedText.
Import ProjectionMatrix ProjectionEvaluator Printing.
Local Open Scope string_scope.
Context {F : Type} {SF : Scalar F}.
Variable State : Type.
Variable show : F -> string.

(** The loop of [print] over the entries of a row, from entry
    [length pre] on. *)
Lemma print_row_from (suf : list F) :
  forall (pre : list F) (out : string),
    fold_left (fun out j => out ++ show (nth j (pre ++ suf) fzero) ++ " ")
              (seq (length pre) (length suf)) out
    = out ++ String.concat "" (map (fun x => show x ++ " ") suf).
Proof.
  induction suf as [|x suf IH]; intros pre out.
  - simpl. now rewrite append_nil_r.
  - cbn [length seq fold_left map].
    rewrite app_nth2, Nat.sub_diag by lia. cbn [nth].
    rewrite (app_snoc pre suf x).
    replace (S (length pre)) with (length (pre ++ [x])) by apply length_snoc.
    rewrite IH, concat_cons. now rewrite !append_assoc.
Qed.

Lemma print_row_text (vec : Row F) (out : string) :
  print_row show vec out = out ++ String.concat "" (map (fun x => show x ++ " ") vec).
Proof. exact (print_row_from vec [] out). Qed.

Lemma print_from (suf : Matrix F) :
  forall (pre : Matrix F) (out : string),
    fold_left (fun out i => print_row show (nth i (pre ++ suf) []) out ++ endl)
              (seq (length pre) (length suf)) out
    = out ++ String.concat "" (map (row_text show) suf).
Proof.
  induction suf as [|vec suf IH]; intros pre out.
  - simpl. now rewrite append_nil_r.
  - cbn [length seq fold_left map].
    rewrite app_nth2, Nat.sub_diag by lia. cbn [nth].
    rewrite (app_snoc pre suf vec).
    replace (S (length pre)) with (length (pre ++ [vec])) by apply length_snoc.
    rewrite IH, print_row_text, concat_cons. unfold row_text.
    now rewrite !append_assoc.
Qed.

(** X18. [print] writes one line per row of the matrix, in order, and on
    each line every entry of the row followed by one space (the last one
    too), after what the stream held. *)
Theorem print_text (mat : Matrix F) (out : string) :
  print show mat out = out ++ String.concat "" (map (row_text show) mat).
Proof. exact (print_from mat [] out). Qed.

Lemma print_cells_from (suf : list F) :
  forall (pre : list F) (out : string),
    fold_left (fun out i =>
                 let out := out ++ show (nth i (pre ++ suf) fzero) in
                 if (i + 1 <? length (pre ++ suf))%nat then out ++ " " else out)
              (seq (length pre) (length suf)) out
    = out ++ String.concat " " (map show suf).
Proof.
  induction suf as [|x suf IH]; intros pre out.
  - simpl. now rewrite append_nil_r.
  - cbn [length seq fold_left map]. cbv zeta.
    rewrite app_nth2, Nat.sub_diag by lia. cbn [nth].
    rewrite (app_snoc pre suf x).
    replace (S (length pre)) with (length (pre ++ [x])) by apply length_snoc.
    rewrite <- (app_snoc pre suf x).
    destruct suf as [|y suf].
    + replace (length pre + 1 <? length (pre ++ [x]))%nat with false
        by (symmetry; apply Nat.ltb_ge; rewrite length_snoc; lia).
      reflexivity.
    + replace (length pre + 1 <? length (pre ++ x :: y :: suf))%nat with true
        by (symmetry; apply Nat.ltb_lt; rewrite length_app; simpl; lia).
      rewrite (app_snoc pre (y :: suf) x), IH.
      cbn [map String.concat]. now rewrite !append_assoc.
Qed.

(** X19. [printSettings] writes, after what the stream held, the line
    [Projection of dimension <n>] and the line [Cell dimensions: [...]]
    with the stored cell dimensions separated by single spaces: no space
    after the last one, and [[]] when none is stored. *)
Theorem printSettings_text (P : Projection F State) (w : World F) (out : string) :
  printSettings State show P w out
  = out ++ "Projection of dimension " ++ show_unsigned (getDimension P) ++ endl
        ++ "Cell dimensions: [" ++ String.concat " " (map show (cellDimensions_ w))
        ++ "]" ++ endl.
Proof.
  unfold printSettings, print_cells.
  rewrite (print_cells_from (cellDimensions_ w) []).
  now rewrite !append_assoc.
Qed.

Lemma print_values_run (count : nat) :
  forall (projection : list F) (i : nat) (out : string),
    i + count <= length projection ->
    print_values show projection i count out
    = Ok (out ++ String.concat "" (map (fun x => show x ++ " ")
                               (firstn count (skipn i projection)))).
Proof.
  induction count as [|count IH]; intros projection i out Hlen.
  - simpl. now rewrite append_nil_r.
  - cbn [print_values]. unfold value.
    rewrite (nth_error_nth' projection fzero) by lia. cbn [obind].
    rewrite IH by lia. f_equal.
    assert (Hskip : skipn i projection = nth i projection fzero :: skipn (S i) projection).
    { clear IH. revert i Hlen. induction projection as [|x l IHl]; intros i Hlen;
        simpl in Hlen; [lia|].
      destruct i as [|i]; [reflexivity|]. simpl. apply IHl. lia. }
    rewrite Hskip. cbn [firstn map]. rewrite concat_cons.
    now rewrite !append_assoc.
Qed.

Lemma print_values_short (count : nat) :
  forall (projection : list F) (i : nat) (out : string),
    length projection < i + count -> i <= length projection ->
    print_values show projection i count out = Undefined.
Proof.
  induction count as [|count IH]; intros projection i out Hlen Hi; [lia|].
  cbn [print_values]. unfold value.
  destruct (nth_error projection i) as [x|] eqn:E; auto. cbn [obind].
  apply IH; [lia|]. assert (i < length projection) by (apply nth_error_Some; congruence).
  lia.
Qed.

Lemma firstn_succ_nth (l : list F) (d : nat) :
  d < length l -> firstn (S d) l = (firstn d l ++ [nth d l fzero])%list.
Proof.
  revert d. induction l as [|x l IH]; intros d Hd; simpl in Hd; [lia|].
  destruct d as [|d]; [reflexivity|].
  change (firstn (S (S d)) (x :: l)) with (x :: firstn (S d) l).
  rewrite IH by lia. reflexivity.
Qed.

Lemma concat_spaced (l : list string) (x : string) :
  String.concat "" (map (fun s => s ++ " ") l) ++ x = String.concat " " (l ++ [x]).
Proof.
  induction l as [|y l IH]; [reflexivity|].
  cbn [map]. rewrite concat_cons, !append_assoc, IH.
  destruct l as [|z l]; reflexivity.
Qed.

(** X20. [printProjection] writes [NULL] and the end of the line when the
    dimension is 0; otherwise it writes the first [getDimension()] values
    of the projection separated by single spaces and the end of the line,
    and reads past the end of a projection with fewer values. *)
Theorem printProjection_text (P : Projection F State) (projection : list F) (out : string) :
  (getDimension P = 0 ->
   printProjection State show P projection out = Ok (out ++ "NULL" ++ endl))
  /\ (0 < getDimension P -> getDimension P <= length projection ->
      printProjection State show P projection out
      = Ok (out ++ String.concat " " (map show (firstn (getDimension P) projection)) ++ endl))
  /\ (length projection < getDimension P ->
      printProjection State show P projection out = Undefined).
Proof.
  unfold printProjection. split; [|split].
  - intros ->. reflexivity.
  - intros Hd Hlen.
    replace (0 <? getDimension P)%nat with true by (symmetry; now apply Nat.ltb_lt).
    rewrite print_values_run by lia. cbn [obind skipn]. unfold value.
    rewrite (nth_error_nth' projection fzero) by lia. cbn [obind]. f_equal.
    rewrite append_assoc. f_equal.
    rewrite <- (map_map show (fun s => s ++ " ")).
    rewrite <- append_assoc, concat_spaced. f_equal.
    change [show (nth (getDimension P - 1) projection fzero)]
      with (map show [nth (getDimension P - 1) projection fzero]).
    rewrite <- map_app.
    rewrite <- (firstn_succ_nth projection (getDimension P - 1)) by lia.
    now replace (S (getDimension P - 1)) with (getDimension P) by lia.
  - intros Hlen.
    replace (0 <? getDimension P)%nat with true by (symmetry; apply Nat.ltb_lt; lia).
    destruct (le_lt_dec (getDimension P - 1) (length projection)) as [Hfit|Hshort].
    + rewrite print_values_run by lia. cbn [obind]. unfold value.
      now replace (nth_error projection (getDimension P - 1)) with (@None F)
        by (symmetry; apply nth_error_None; lia).
    + now rewrite print_values_short by lia.
Qed.

End PrintedText.

(* ================================================================== *)
(** * More runs *)
(* ================================================================== *)

Section MoreMatrixRuns.
Import ProjectionMatrix ProjectionMatrixMembers Examples MoreExamples.
Local Open Scope float_scope.

(** X5 on the draws 2, 0, 1, 1 and the scale factors 2 and 4. *)
Lemma ComputeRandom_scaled_witness :
  exists m,
    ComputeRandom 2 2 [2; 4] (drawing 0 [2; 0; 1; 1]) = Ok m
    /\ shaped 2 2 m
    /\ forall i j, (i < 2)%nat -> (j < 2)%nat ->
         nth j (nth i m []) 0
         = nth j (nth i (orthonormalize 2 (fill 2 2 (drawing 0 [2; 0; 1; 1]))) []) 0
           / nth i [2; 4] 0.
Proof.
  assert (Hs : all_significant [2; 4] 2).
  { intros i Hi _. destruct i as [|[|i]]; [reflexivity | reflexivity | lia]. }
  exact (ComputeRandom_scaled 2 2 [2; 4] (drawing 0 [2; 0; 1; 1])
           eq_refl (le_S 1 1 (le_n 1)) (le_n 2) Hs).
Defined.

(** The same run, evaluated: row 0 is halved, row 1 is quartered. *)
Example ComputeRandom_scaled_run_2_4 :
  ComputeRandom 2 2 [2; 4] (drawing 0 [2; 0; 1; 1])
  = Ok [[1; 0]; [-0.94868329805051377 / 4; 0.31622776601683794 / 4]].
Proof. vm_compute. reflexivity. Qed.

(** X8 on a source with two entries more than the rows. *)
Lemma project_source_prefix_witness :
  project [[1; 2]; [3; 4]] ([1; 1] ++ [7; 7]) [9; 9; 9]
  = project [[1; 2]; [3; 4]] [1; 1] [9; 9; 9].
Proof.
  apply (project_source_prefix [[1; 2]; [3; 4]] [1; 1] [7; 7] [9; 9; 9]).
  repeat constructor.
Defined.

(** X9 on a call that throws, on a call with a scale vector that returns,
    and on the overload without scale vector. *)
Lemma computeRandom_then_project_witness :
  snd (computeRandom 2 2 [0; 1] (drawing 0 [2; 0; 1; 1]) [[5; 6]]) = [[5; 6]]
  /\ (exists out,
         project (snd (computeRandom 2 2 [2; 4] (drawing 0 [2; 0; 1; 1]) [[5; 6]]))
                 [1; 1] [9; 9; 9] = Ok out
         /\ length out = length [9; 9; 9]
         /\ skipn 2 out = skipn 2 [9; 9; 9])
  /\ exists out,
       project (snd (computeRandom_unscaled 2 2 (drawing 0 [2; 0; 1; 1]) [[5; 6]]))
               [1; 1] [9; 9; 9] = Ok out
       /\ length out = length [9; 9; 9]
       /\ skipn 2 out = skipn 2 [9; 9; 9].
Proof.
  destruct (computeRandom_then_project 2 2 [0; 1] (drawing 0 [2; 0; 1; 1]) [[5; 6]]
              [1; 1] [9; 9; 9]) as [Hkeep _].
  destruct (computeRandom_then_project 2 2 [2; 4] (drawing 0 [2; 0; 1; 1]) [[5; 6]]
              [1; 1] [9; 9; 9]) as [_ Hproject].
  destruct Hproject as (Hscaled & _ & Hunscaled); [reflexivity | simpl; lia |].
  split; [|split].
  - apply Hkeep. exists DegenerateScale. vm_compute. reflexivity.
  - apply Hscaled. vm_compute. reflexivity.
  - exact Hunscaled.
Defined.

End MoreMatrixRuns.

Section MoreEvaluatorRuns.
Import ProjectionEvaluator Extent Printing Examples MoreExamples.
Local Open Scope float_scope.

(** X12 on three cell dimensions for the plane. *)
Lemma setup_failure_keeps_witness :
  snd (setup magic4 plane (fresh [1; 2; 3])) = fresh [1; 2; 3]
  /\ fst (setup magic4 plane (fresh [1; 2; 3])) <> Undefined.
Proof.
  destruct (setup_failure_keeps nat magic4 plane (fresh [1; 2; 3]) plane_conforming)
    as [Hkeep Hdefined].
  split; [|exact Hdefined]. apply Hkeep. vm_compute. discriminate.
Defined.

(** X13 on the plane, after two cell dimensions have been set. *)
Lemma inferCellDimensions_overwrites_witness :
  cellDimensions_
    (snd (inferCellDimensions magic4 plane (snd (setCellDimensions plane [7; 8] (fresh [])))))
  = cellDimensions_ (snd (inferCellDimensions magic4 plane (fresh [])))
  /\ fst (inferCellDimensions magic4 plane (snd (setCellDimensions plane [7; 8] (fresh []))))
     = Ok tt.
Proof.
  apply (inferCellDimensions_overwrites nat magic4 plane [7; 8] (fresh []) plane_conforming).
  simpl. lia.
Defined.

(** X14 on the constant axis of the plane. *)
Lemma inferCellDimensions_significant_witness :
  exists c,
    nth_error (cellDimensions_ (snd (inferCellDimensions magic4 plane (fresh [])))) 1 = Some c
    /\ (c <? 0x1p-52) = false
    /\ float_zero c = false.
Proof.
  apply (inferCellDimensions_significant nat magic4 plane (fresh []) 1 plane_conforming).
  simpl. lia.
Defined.

(** X15 on the plane with the cell dimensions 1 and 0. *)
Lemma zero_cell_dimension_witness :
  fst (setCellDimensions plane [1; 0] (fresh [])) = Ok tt
  /\ computeCoordinates plane [5; 5] (snd (setCellDimensions plane [1; 0] (fresh [])))
     = Undefined.
Proof.
  apply (zero_cell_dimension nat plane [1; 0] [5; 5] (fresh []) 1).
  - reflexivity.
  - simpl. lia.
  - reflexivity.
Defined.

(** X16 on the plane with a negative and an infinite cell dimension. *)
Lemma origin_coordinates_witness :
  computeCoordinates plane [0; -0] (fresh [-2.5; infinity]) = Ok (repeat 0%Z 2).
Proof.
  apply (origin_coordinates nat plane [0; -0] (fresh [-2.5; infinity])).
  - reflexivity.
  - reflexivity.
  - repeat constructor.
  - repeat constructor.
Defined.

(** X20 on the plane. *)
Lemma printProjection_text_witness :
  printProjection nat show_sign plane [1; -2; 3] "> "
  = Ok ("> " ++ String.concat " " (map show_sign (firstn 2 [1; -2; 3])) ++ endl)%string
  /\ printProjection nat show_sign plane [1] "> " = Undefined.
Proof.
  destruct (printProjection_text nat show_sign plane [1; -2; 3] "> ") as (_ & Hfit & _).
  destruct (printProjection_text nat show_sign plane [1] "> ") as (_ & _ & Hshort).
  split.
  - apply Hfit; simpl; lia.
  - apply Hshort. simpl. lia.
Defined.

(** The three printing members, evaluated. *)
Example printed_texts :
  print show_sign [[1; -2]; [3; 4]] "" = ("+ - " ++ endl ++ "+ + " ++ endl)%string
  /\ printSettings nat show_sign plane (fresh [1; -2; 3]) ""
     = ("Projection of dimension 2" ++ endl ++ "Cell dimensions: [+ - +]" ++ endl)%string
  /\ printSettings nat show_sign plane (fresh []) ""
     = ("Projection of dimension 2" ++ endl ++ "Cell dimensions: []" ++ endl)%string
  /\ printProjection nat show_sign plane [1; -2; 3] "" = Ok ("+ -" ++ endl)%string
  /\ printProjection nat show_sign (diagonal 0) [1; -2; 3] "" = Ok ("NULL" ++ endl)%string.
Proof. vm_compute. auto 6. Qed.

End MoreEvaluatorRuns.
